(** * dirdiff.output_file: the filesystem output backend

    A shallow embedding of [src/dirdiff/output_file.py]
    (class [OutputBackendFile]) and of the parts of the Python standard
    library it calls ([posixpath.join], [posixpath.normpath], [stat.S_IFMT],
    [stat.S_IMODE]), followed by the properties of the backend.

    Layout:
    - [PosixPath], [Stat]: the pure library functions the backend calls;
    - [Py]: exceptions and the state-and-exception monad of a method body;
    - [Os]: the interface of the calls the backend makes on the [os] and
      [socket] modules, with a call-recording wrapper over any provider;
    - [Backend]: the methods of [OutputBackendFile], one definition each;
    - [Readers]: two content readers ([io.BytesIO] and a scripted one);
    - [ModelFS]: a small POSIX file tree that provides [Os];
    - [OsShim]: the device number encoding;
    - [Trace]: the vocabulary in which recorded runs are described;
    - [Sample]: the inputs of the tests, for the examples;
    - the theorems. *)

From Stdlib Require Import ZArith List Lia Bool.
From Stdlib Require Import Strings.String Strings.Ascii Strings.Byte.
From stdpp Require Import base option gmap strings list.

Local Open Scope Z_scope.

(** Python [bytes]. *)
Abbreviation bytes := (list Byte.byte).

(** A [bytes] literal [b"..."]. *)
Definition bytes_lit (s : string) : bytes := list_byte_of_string s.

(* ===================================================================== *)
(** ** posixpath *)
(* ===================================================================== *)

Module PosixPath.

Definition sep : string := "/".

(** [s.startswith(p)] *)
Definition startswith (s p : string) : bool := String.prefix p s.

(** [s.endswith("/")] *)
Fixpoint endswith_sep (s : string) : bool :=
  match s with
  | EmptyString => false
  | String c EmptyString => Ascii.eqb c "/"%char
  | String _ s' => endswith_sep s'
  end.

(** [s.split("/")]: the pieces between separators; never empty. *)
Fixpoint split (s : string) : list string :=
  match s with
  | EmptyString => [""]
  | String c s' =>
      if Ascii.eqb c "/"%char then "" :: split s'
      else match split s' with
           | [] => [String c ""]
           | h :: t => String c h :: t
           end
  end.

(** [posixpath.join(a, b)] with one extra component, as the backend
    calls it. *)
Definition join (a p : string) : string :=
  if startswith p sep then p
  else if (String.eqb a "" || endswith_sep a)%bool then a +:+ p
  else a +:+ sep +:+ p.

(** One turn of the component loop of [normpath]. *)
Definition norm_step (initial_slashes : Z) (new_comps : list string)
    (comp : string) : list string :=
  if (String.eqb comp "" || String.eqb comp ".")%bool then new_comps
  else if (negb (String.eqb comp "..")
           || (Z.eqb initial_slashes 0 && bool_decide (new_comps = []))
           || (negb (bool_decide (new_comps = []))
               && String.eqb (List.last new_comps "") ".."))%bool
  then new_comps ++ [comp]
  else if negb (bool_decide (new_comps = [])) then List.removelast new_comps
  else new_comps.

(** [posixpath.normpath(path)] *)
Definition normpath (path : string) : string :=
  if String.eqb path "" then "."
  else
    let initial_slashes : Z :=
      if startswith path sep then
        if (startswith path "//" && negb (startswith path "///"))%bool
        then 2 else 1
      else 0 in
    let comps := fold_left (norm_step initial_slashes) (split path) [] in
    let path' := String.concat sep comps in
    let path' :=
      if Z.eqb initial_slashes 0 then path'
      else if Z.eqb initial_slashes 2 then "//" +:+ path'
      else "/" +:+ path' in
    if String.eqb path' "" then "." else path'.

(** Helpers of [dirname], on the reversed characters: drop trailing
    separators; drop the last component. *)
Fixpoint rstrip_sep (rev_s : list ascii) : list ascii :=
  match rev_s with
  | c :: t => if Ascii.eqb c "/"%char then rstrip_sep t else rev_s
  | [] => []
  end.

Fixpoint drop_tail_comp (rev_s : list ascii) : list ascii :=
  match rev_s with
  | c :: t => if Ascii.eqb c "/"%char then rev_s else drop_tail_comp t
  | [] => []
  end.

(** [posixpath.dirname(p)]: everything up to the last separator, with
    trailing separators removed unless the head is all separators. *)
Definition dirname (p : string) : string :=
  let head := drop_tail_comp (rev (list_ascii_of_string p)) in
  match rstrip_sep head with
  | [] => string_of_list_ascii (rev head)
  | stripped => string_of_list_ascii (rev stripped)
  end.

End PosixPath.

(* ===================================================================== *)
(** ** stat, and the metadata record *)
(* ===================================================================== *)

Module Stat.

(** Constants of the [stat] module (octal in the comments). *)
Definition S_IFDIR  : Z := 0x4000.  (* 0o040000 *)
Definition S_IFCHR  : Z := 0x2000.  (* 0o020000 *)
Definition S_IFBLK  : Z := 0x6000.  (* 0o060000 *)
Definition S_IFREG  : Z := 0x8000.  (* 0o100000 *)
Definition S_IFIFO  : Z := 0x1000.  (* 0o010000 *)
Definition S_IFLNK  : Z := 0xA000.  (* 0o120000 *)
Definition S_IFSOCK : Z := 0xC000.  (* 0o140000 *)
Definition S_ISUID  : Z := 0x800.   (* 0o004000 *)
Definition S_ISGID  : Z := 0x400.   (* 0o002000 *)
Definition S_IWUSR  : Z := 0x80.    (* 0o000200 *)
Definition S_IWGRP  : Z := 0x10.    (* 0o000020 *)
Definition S_IXGRP  : Z := 0x8.     (* 0o000010 *)
Definition S_IWOTH  : Z := 0x2.     (* 0o000002 *)

(** [stat.S_IFMT(mode)]: [mode & 0o170000] *)
Definition S_IFMT (mode : Z) : Z := Z.land mode 0xF000.

(** [stat.S_IMODE(mode)]: [mode & 0o7777] *)
Definition S_IMODE (mode : Z) : Z := Z.land mode 0xFFF.

(** [stat.S_ISSOCK(mode)] *)
Definition S_ISSOCK (mode : Z) : bool := S_IFMT mode =? S_IFSOCK.

Definition S_ISLNK (mode : Z) : bool := S_IFMT mode =? S_IFLNK.
Definition S_ISDIR (mode : Z) : bool := S_IFMT mode =? S_IFDIR.
Definition S_ISREG (mode : Z) : bool := S_IFMT mode =? S_IFREG.

End Stat.

(** Modelled from the spec: [StatInfo] is imported from [dirdiff.output],
    which is not part of the sources at hand.  Section 3 of the
    specification (ObjectMetadata) lists its fields, and the tests build it
    as [StatInfo(mode, uid, gid, size, mtime, rdev)]. *)
Record StatInfo : Type := mkStatInfo {
  mode  : Z;
  uid   : Z;
  gid   : Z;
  size  : Z;
  mtime : Z;
  rdev  : Z
}.

(* ===================================================================== *)
(** ** Exceptions and the monad of a method body *)
(* ===================================================================== *)

Module Py.

(** What a call into the interpreter's library can raise: an [OSError]
    (with its [errno], [0] when the exception carries none, and the text
    [str(exc)] renders), or an exception of some other class
    ([ValueError], [OverflowError], ...). *)
Inductive native_exn : Type :=
| OSError (errno : Z) (text : string)
| OtherError (cls : string) (text : string).

(** Modelled from the spec: [DirDiffOutputException] is imported from
    [dirdiff.exceptions], which is not part of the sources at hand.
    Section 7 of the specification describes it as the one
    domain-specific error kind that carries its underlying cause; the
    cause is what [raise ... from exc] stores in [__cause__]. *)
Inductive exn : Type :=
| Native (e : native_exn)
| DirDiffOutputException (msg : string) (cause : option native_exn).

(** [str(exc)] *)
Definition str (e : native_exn) : string :=
  match e with
  | OSError _ text => text
  | OtherError _ text => text
  end.

(** The class of an exception object, which is all that an [except]
    clause looks at. *)
Inductive exn_class : Type :=
| COSError
| COther (cls : string)
| CDirDiffOutputException.

Definition class_of (e : exn) : exn_class :=
  match e with
  | Native (OSError _ _) => COSError
  | Native (OtherError cls _) => COther cls
  | DirDiffOutputException _ _ => CDirDiffOutputException
  end.

Definition message_of (e : exn) : string :=
  match e with
  | Native n => str n
  | DirDiffOutputException msg _ => msg
  end.

(** [exc.__cause__] *)
Definition cause_of (e : exn) : option native_exn :=
  match e with
  | Native _ => None
  | DirDiffOutputException _ cause => cause
  end.

Inductive outcome (A : Type) : Type :=
| Returns (a : A)
| Raises (e : exn).
Arguments Returns {A} a.
Arguments Raises {A} e.

(** A method body over a world [W]: it either runs out of loop fuel
    ([None]) or ends, by returning or by raising, in a new world. *)
Definition M (W A : Type) : Type := W -> option (outcome A * W).

Definition ret {W A} (a : A) : M W A := fun w => Some (Returns a, w).

Definition raise {W A} (e : exn) : M W A := fun w => Some (Raises e, w).

Definition bind {W A B} (m : M W A) (k : A -> M W B) : M W B :=
  fun w =>
    match m w with
    | None => None
    | Some (Raises e, w') => Some (Raises e, w')
    | Some (Returns a, w') => k a w'
    end.

(** [try: body / except OSError as exc: handler(exc)] *)
Definition try_except_OSError {W A} (body : M W A)
    (handler : native_exn -> M W A) : M W A :=
  fun w =>
    match body w with
    | Some (Raises (Native (OSError errno text)), w') =>
        handler (OSError errno text) w'
    | r => r
    end.

(** [try: body / finally: cleanup]; an exception of the cleanup
    replaces the outcome of the body. *)
Definition try_finally {W A B} (body : M W A) (cleanup : M W B) : M W A :=
  fun w =>
    match body w with
    | None => None
    | Some (r, w') =>
        match cleanup w' with
        | None => None
        | Some (Raises e, w'') => Some (Raises e, w'')
        | Some (Returns _, w'') => Some (r, w'')
        end
    end.

End Py.

Import Py.

#[export] Instance M_ret {W} : MRet (M W) := fun A a => Py.ret a.
#[export] Instance M_bind {W} : MBind (M W) := fun A B k m => Py.bind m k.

(* ===================================================================== *)
(** ** The calls the backend makes on its environment *)
(* ===================================================================== *)

Module Os.

(** Linux values of the constants the backend passes. *)
Definition O_WRONLY : Z := 1.
Definition O_CREAT  : Z := 0x40.   (* 0o100 *)
Definition O_EXCL   : Z := 0x80.   (* 0o200 *)
Definition O_TRUNC  : Z := 0x200.  (* 0o1000 *)
Definition AF_UNIX    : Z := 1.
Definition SOCK_DGRAM : Z := 2.

(** One constructor per function or method the backend calls on the
    [os] module, on the file object of [os.fdopen], and on the socket
    object.  Handles (descriptors, file and socket objects) are
    integers; a call that returns [None] returns [0]. *)
Inductive call : Type :=
| mkdir (path : string) (mode : Z)
| open (path : string) (flags : Z) (mode : Z)
| fdopen (fd : Z) (mode : string)
| write (fout : Z) (data : bytes)
| close (fout : Z)
| lchown (path : string) (uid gid : Z)
| fchown (fd : Z) (uid gid : Z)
| symlink (src dst : string)
| mknod (path : string) (mode : Z) (device : Z)
| socket (family type : Z)
| bind (sock : Z) (address : string)
| sock_close (sock : Z)
| chmod (path : string) (mode : Z).

Class Os (W : Type) : Type :=
  perform : call -> W -> (native_exn + Z) * W.

(** The [read] method of the reader object handed to [write_file]: a
    state transformer on the world the object lives in. *)
Definition Reader (W : Type) : Type := Z -> W -> (native_exn + bytes) * W.

(** What a recording world remembers of a call. *)
Inductive event : Type :=
| Called (c : call) (r : native_exn + Z)
| Read (n : Z) (r : native_exn + bytes).

(** A world that records, in order, every call made on it. *)
Record Traced (W : Type) : Type := mkTraced {
  events : list event;
  world : W
}.
Arguments mkTraced {W} events world.
Arguments events {W} t.
Arguments world {W} t.

#[export] Instance traced_os {W} `{Os W} : Os (Traced W) :=
  fun c t =>
    let '(r, w') := perform c (world t) in
    (r, mkTraced (events t ++ [Called c r]) w').

Definition traced_reader {W} (reader : Reader W) : Reader (Traced W) :=
  fun n t =>
    let '(r, w') := reader n (world t) in
    (r, mkTraced (events t ++ [Read n r]) w').

(** The two ownership calls. *)
Definition is_chown (c : call) : bool :=
  match c with
  | lchown _ _ _ | fchown _ _ _ => true
  | _ => false
  end.

Section Calls.
Context {W : Type} `{Os W}.

(** Make a call from a method body. *)
Definition sys (c : call) : M W Z :=
  fun w =>
    match perform c w with
    | (inl e, w') => Some (Raises (Native e), w')
    | (inr v, w') => Some (Returns v, w')
    end.

(** [reader.read(n)] *)
Definition read_from (reader : Reader W) (n : Z) : M W bytes :=
  fun w =>
    match reader n w with
    | (inl e, w') => Some (Raises (Native e), w')
    | (inr data, w') => Some (Returns data, w')
    end.
End Calls.

End Os.

Import Os.

(* ===================================================================== *)
(** ** class OutputBackendFile *)
(* ===================================================================== *)

Module Backend.

Record OutputBackendFile : Type := mkBackend {
  base_path : string;
  preserve_owners : bool
}.

(** [__init__(self, base_path, *, preserve_owners=False)]; the second
    definition is the call that leaves the keyword out. *)
Definition init (base_path : string) (preserve_owners : bool)
    : OutputBackendFile :=
  mkBackend base_path preserve_owners.

Definition init_default (base_path : string) : OutputBackendFile :=
  init base_path false.

Definition _full_path (self : OutputBackendFile) (path : string) : string :=
  PosixPath.normpath (PosixPath.join (base_path self) path).

Section Methods.
Context {W : Type} `{Os W}.

(** [fd] is [-1] when the caller passes none. *)
Definition _fixup_owners (self : OutputBackendFile) (full_path : string)
    (st : StatInfo) (fd : Z) : M W unit :=
  if negb (preserve_owners self) then ret tt
  else
    try_except_OSError
      (if fd =? -1
       then sys (lchown full_path (uid st) (gid st));; ret tt
       else sys (fchown fd (uid st) (gid st));; ret tt)
      (fun exc =>
         raise (DirDiffOutputException
                  ("failed to chown object: " +:+ str exc) (Some exc))).

Definition write_dir (self : OutputBackendFile) (path : string)
    (st : StatInfo) : M W unit :=
  let full_path := _full_path self path in
  sys (mkdir full_path (Stat.S_IMODE (mode st)));;
  _fixup_owners self full_path st (-1).

(** [while data := reader.read(2**16): fout.write(data)]; [fuel] bounds
    the number of turns, and the loop is [None] when it runs out. *)
Fixpoint copy_loop (fuel : nat) (reader : Reader W) (fout : Z)
    : M W unit :=
  match fuel with
  | O => fun _ => None
  | S fuel' =>
      data ← read_from reader (2 ^ 16);
      if bool_decide (data = [])
      then ret tt
      else sys (write fout data);; copy_loop fuel' reader fout
  end.

(** The [with] block closes the file object on every way out. *)
Definition write_file (fuel : nat) (self : OutputBackendFile)
    (path : string) (st : StatInfo) (reader : Reader W) : M W unit :=
  let full_path := _full_path self path in
  fd ← sys (open full_path (Z.lor O_WRONLY O_CREAT)
              (Stat.S_IMODE (mode st)));
  fout ← sys (fdopen fd "wb");
  try_finally
    (copy_loop fuel reader fout;;
     _fixup_owners self full_path st fd)
    (sys (close fout)).

Definition write_symlink (self : OutputBackendFile) (path : string)
    (st : StatInfo) (linkname : string) : M W unit :=
  let full_path := _full_path self path in
  sys (symlink linkname full_path);;
  _fixup_owners self full_path st (-1).

Definition write_other (self : OutputBackendFile) (path : string)
    (st : StatInfo) : M W unit :=
  let full_path := _full_path self path in
  (if bool_decide (Stat.S_IFMT (mode st)
                     ∈ [Stat.S_IFCHR; Stat.S_IFBLK; Stat.S_IFIFO])
   then sys (mknod full_path (mode st) (rdev st));; ret tt
   else if Stat.S_ISSOCK (mode st)
   then
     sock ← sys (socket AF_UNIX SOCK_DGRAM);
     sys (bind sock full_path);;
     sys (sock_close sock);;
     sys (chmod full_path (Stat.S_IMODE (mode st)));; ret tt
   else raise (DirDiffOutputException "Unsupported file type" None));;
  _fixup_owners self full_path st (-1).

End Methods.

End Backend.

Import Backend.

(* ===================================================================== *)
(** ** Content readers *)
(* ===================================================================== *)

Module Readers.

(** [io.BytesIO(initial)]: the buffer and the read position. *)
Record BytesIO : Type := mkBytesIO {
  buffer : bytes;
  pos : nat
}.

Definition new_BytesIO (initial : bytes) : BytesIO := mkBytesIO initial 0.

(** [BytesIO.read(n)]: up to [n] bytes from the position, all of the
    rest when [n] is negative. *)
Definition BytesIO_read (n : Z) (r : BytesIO)
    : (native_exn + bytes) * BytesIO :=
  let rest := skipn (pos r) (buffer r) in
  let chunk := if n <? 0 then rest else firstn (Z.to_nat n) rest in
  (inr chunk, mkBytesIO (buffer r) (pos r + length chunk)%nat).

(** A reader that answers its successive [read] calls from a script,
    whatever the size asked for, and with [b""] once the script is over. *)
Definition Script : Type := list bytes.

Definition Script_read (n : Z) (r : Script)
    : (native_exn + bytes) * Script :=
  match r with
  | [] => (inr [], [])
  | chunk :: r' => (inr chunk, r')
  end.

(** Successive [read(n)] calls from the state [r] return the non-empty
    chunks [cs] and then [b""], and leave the reader in [r']. *)
Inductive yields {R : Type} (read : Z -> R -> (native_exn + bytes) * R)
    (n : Z) : R -> list bytes -> R -> Prop :=
| yields_end r r' :
    read n r = (inr [], r') -> yields read n r [] r'
| yields_chunk r chunk r1 cs r' :
    read n r = (inr chunk, r1) -> chunk ≠ [] ->
    yields read n r1 cs r' ->
    yields read n r (chunk :: cs) r'.

(** A world made of a provider [W] and a reader object [R] next to it. *)
#[export] Instance pair_os {W R} `{Os W} : Os (W * R) :=
  fun c wr =>
    let '(res, w') := perform c (fst wr) in (res, (w', snd wr)).

Definition reader_of {W R}
    (read : Z -> R -> (native_exn + bytes) * R) : Reader (W * R) :=
  fun n wr =>
    let '(res, r') := read n (snd wr) in (res, (fst wr, r')).

End Readers.

Import Readers.

(* ===================================================================== *)

(* ===================================================================== *)
(** ** A model of the file tree behind the calls *)
(* ===================================================================== *)

(** The model keeps one inode per normalized absolute path and follows
    Linux.  It checks what the backend's calls depend on: whether the
    object and its parent directory exist, the object's type, the
    privilege needed to change owners and to create device nodes, write
    permission on a file that is opened, the umask, what a new object
    takes from a set-group-ID directory, and the set-ID bits that are
    lost when an owner changes or an unprivileged process writes.  The
    process has its effective user and group and no supplementary groups.

    The model takes its arguments as the C interfaces behind the calls
    take them: a mode of 32 bits, a device number of 32 bits, as user or
    group id a number from 0 to [2^32 - 2], or [-1] for an id that is to
    stay, and a path without a zero byte that is within the limits on
    the length of a path and of its components.  It does not model
    search and write permission on directories, symbolic links in the
    middle of a path, hard links, access control lists, timestamps or
    disk space. *)
Module ModelFS.

Record inode : Type := mkInode {
  st_mode : Z;
  st_uid : Z;
  st_gid : Z;
  st_rdev : Z;
  content : bytes;
  link_target : string
}.

Definition set_content (i : inode) (data : bytes) : inode :=
  mkInode (st_mode i) (st_uid i) (st_gid i) (st_rdev i) data (link_target i).

Definition set_mode (i : inode) (mode : Z) : inode :=
  mkInode mode (st_uid i) (st_gid i) (st_rdev i) (content i) (link_target i).

Inductive handle : Type :=
| HFile (path : string) (offset : nat)
| HSocket.

Record FS : Type := mkFS {
  files : gmap string inode;
  handles : gmap Z handle;
  next_fd : Z;
  euid : Z;
  egid : Z;
  umask : Z
}.

Definition set_files (fs : FS) (m : gmap string inode) : FS :=
  mkFS m (handles fs) (next_fd fs) (euid fs) (egid fs) (umask fs).

Definition set_handles (fs : FS) (h : gmap Z handle) : FS :=
  mkFS (files fs) h (next_fd fs) (euid fs) (egid fs) (umask fs).

Definition alloc_handle (fs : FS) (h : handle) : Z * FS :=
  (next_fd fs,
   mkFS (files fs) (<[next_fd fs := h]> (handles fs)) (next_fd fs + 1)
        (euid fs) (egid fs) (umask fs)).

(** *** Errors *)

(** Which paths the text of an [OSError] names: [os.mkdir], [os.open],
    [os.lchown] and [os.chmod] name the path they were given,
    [os.symlink] names both of its arguments, and [os.mknod],
    [os.fchown], the file object and the socket name none. *)
Inductive naming : Type :=
| Unnamed
| Named (p : string)
| Named2 (src dst : string).

Definition strerror (errno : Z) : string :=
  match errno with
  | 1 => "[Errno 1] Operation not permitted"
  | 2 => "[Errno 2] No such file or directory"
  | 6 => "[Errno 6] No such device or address"
  | 9 => "[Errno 9] Bad file descriptor"
  | 13 => "[Errno 13] Permission denied"
  | 17 => "[Errno 17] File exists"
  | 20 => "[Errno 20] Not a directory"
  | 21 => "[Errno 21] Is a directory"
  | 22 => "[Errno 22] Invalid argument"
  | 40 => "[Errno 40] Too many levels of symbolic links"
  | 98 => "[Errno 98] Address already in use"
  | _ => ""
  end.

Definition os_error (errno : Z) (n : naming) : native_exn :=
  OSError errno
    (strerror errno
     +:+ match n with
         | Unnamed => ""
         | Named p => ": '" +:+ p +:+ "'"
         | Named2 src dst => ": '" +:+ src +:+ "' -> '" +:+ dst +:+ "'"
         end).

Definition EPERM (p : string) : native_exn := os_error 1 (Named p).
Definition ENOENT (p : string) : native_exn := os_error 2 (Named p).
Definition ENXIO (p : string) : native_exn := os_error 6 (Named p).
Definition EBADF : native_exn := os_error 9 Unnamed.
Definition EACCES (p : string) : native_exn := os_error 13 (Named p).
Definition EEXIST (p : string) : native_exn := os_error 17 (Named p).
Definition EISDIR (p : string) : native_exn := os_error 21 (Named p).
Definition EINVAL : native_exn := os_error 22 Unnamed.
Definition ELOOP (p : string) : native_exn := os_error 40 (Named p).
Definition EADDRINUSE : native_exn := os_error 98 Unnamed.

(** [socket.bind] refuses, before any system call, an address that
    does not fit [sun_path] with its final zero byte; the [OSError] it
    raises has no [errno]. *)
Definition sun_path_size : nat := 108.
Definition path_too_long : native_exn := OSError 0 "AF_UNIX path too long".

(** *** Mode bits *)

Definition has_flag (flags f : Z) : bool := negb (Z.land flags f =? 0).

Definition clear_bits (m b : Z) : Z := Z.land m (Z.lnot b).

(** [perm & ~umask]; a umask has the nine permission bits only. *)
Definition mask (perm um : Z) : Z := clear_bits perm (Z.land um 0x1FF).

(** What is left of a mode when the set-ID bits are taken for safety:
    the set-user-ID bit goes, and the set-group-ID bit goes where
    group-execute is set. *)
Definition drop_setid (m : Z) : Z :=
  clear_bits (if has_flag m Stat.S_IXGRP then clear_bits m Stat.S_ISGID
              else m)
    Stat.S_ISUID.

(** *** Creating an entry *)

Definition parent_of (p : string) : string :=
  let d := PosixPath.dirname p in
  if String.eqb d "" then "." else d.

(** The directory a new entry at [p] goes into, or the [errno] when
    there is none. *)
Definition parent_dir (fs : FS) (p : string) : Z + inode :=
  match files fs !! parent_of p with
  | None => inl 2
  | Some d => if Stat.S_ISDIR (st_mode d) then inr d else inl 20
  end.

(** The parent of a new entry must be an existing directory. *)
Definition check_parent (fs : FS) (p : string) : option native_exn :=
  match parent_dir fs p with
  | inl errno => Some (os_error errno (Named p))
  | inr _ => None
  end.

(** Follow symbolic links at the last component, forty at most. *)
Fixpoint resolve (fuel : nat) (m : gmap string inode) (p : string)
    : option string :=
  match m !! p with
  | Some i =>
      if Stat.S_ISLNK (st_mode i) then
        match fuel with
        | O => None
        | S fuel' =>
            resolve fuel' m
              (PosixPath.normpath
                 (PosixPath.join (PosixPath.dirname p) (link_target i)))
        end
      else Some p
  | None => Some p
  end.

(** The group of a new object in the directory [d]: that of [d] when
    [d] is set-group-ID, else that of the process. *)
Definition new_gid (fs : FS) (d : inode) : Z :=
  if has_flag (st_mode d) Stat.S_ISGID then st_gid d else egid fs.

(** The mode of a new object in [d], asked for as [mode].  Below a
    set-group-ID directory a new directory is set-group-ID as well, and
    any other object loses a set-group-ID bit that comes with
    group-execute unless the process is privileged or in the group of
    [d]. *)
Definition new_mode (fs : FS) (d : inode) (mode : Z) : Z :=
  if has_flag (st_mode d) Stat.S_ISGID then
    if Stat.S_ISDIR mode then Z.lor mode Stat.S_ISGID
    else if has_flag mode Stat.S_ISGID && has_flag mode Stat.S_IXGRP
            && negb (euid fs =? 0) && negb (egid fs =? st_gid d)
         then clear_bits mode Stat.S_ISGID
         else mode
  else mode.

(** The inode of a new object in the directory [d]: it belongs to the
    user of the process. *)
Definition new_inode (fs : FS) (d : inode) (mode rdev : Z) (data : bytes)
    (target : string) : inode :=
  mkInode (new_mode fs d mode) (euid fs) (new_gid fs d) rdev data target.

(** Create the entry [p] if it is free and its parent is a directory;
    [n] says how the failing call names its paths. *)
Definition create (n : naming) (fs : FS) (p : string) (mode rdev : Z)
    (data : bytes) (target : string) : (native_exn + Z) * FS :=
  match files fs !! p with
  | Some _ => (inl (os_error 17 n), fs)
  | None =>
      match parent_dir fs p with
      | inl errno => (inl (os_error errno n), fs)
      | inr d =>
          (inr 0,
           set_files fs
             (<[p := new_inode fs d mode rdev data target]> (files fs)))
      end
  end.

(** *** The calls *)

(** Write [data] at [offset] over [old], padding with zero bytes when
    the offset is past the end. *)
Definition splice (old : bytes) (offset : nat) (data : bytes) : bytes :=
  firstn offset old ++ repeat x00 (offset - length old)
    ++ data ++ skipn (offset + length data) old.

(** A privileged process may change any owner.  Any other process may
    name as user only the user the object has, and that when the object
    is its own; as group, the group the object has or its own group, and
    that when the object is its own. *)
Definition may_chown (fs : FS) (i : inode) (uid gid : Z) : bool :=
  (euid fs =? 0)
  || (((uid =? -1) || ((euid fs =? st_uid i) && (uid =? st_uid i)))
      && ((gid =? -1)
          || ((euid fs =? st_uid i)
              && ((gid =? st_gid i) || (gid =? egid fs))))).

(** The inode after a change of owner: an id of [-1] stays, and an
    object that is not a directory loses set-ID bits, whoever makes the
    call. *)
Definition chowned (i : inode) (uid gid : Z) : inode :=
  mkInode (if Stat.S_ISDIR (st_mode i) then st_mode i
           else drop_setid (st_mode i))
          (if uid =? -1 then st_uid i else uid)
          (if gid =? -1 then st_gid i else gid)
          (st_rdev i) (content i) (link_target i).

Definition chown_at (n : naming) (fs : FS) (p : string) (uid gid : Z)
    : (native_exn + Z) * FS :=
  match files fs !! p with
  | None => (inl (os_error 2 n), fs)
  | Some i =>
      if may_chown fs i uid gid
      then (inr 0, set_files fs (<[p := chowned i uid gid]> (files fs)))
      else (inl (os_error 1 n), fs)
  end.

(** Whether the process may write to the object: the permission bit of
    its class (owner, group, others) decides, except for a privileged
    process. *)
Definition may_write (fs : FS) (i : inode) : bool :=
  (euid fs =? 0)
  || has_flag (st_mode i)
       (if euid fs =? st_uid i then Stat.S_IWUSR
        else if egid fs =? st_gid i then Stat.S_IWGRP
        else Stat.S_IWOTH).

Definition do_open (fs : FS) (p : string) (flags mode : Z)
    : (native_exn + Z) * FS :=
  let make (q : string) :=
    match create (Named p) fs q
            (Z.lor Stat.S_IFREG (mask (Stat.S_IMODE mode) (umask fs)))
            0 [] "" with
    | (inl e, fs') => (inl e, fs')
    | (inr _, fs') =>
        let '(fd, fs'') := alloc_handle fs' (HFile q 0) in
        (inr fd, fs'')
    end in
  match files fs !! p with
  | Some _ =>
      if has_flag flags O_CREAT && has_flag flags O_EXCL
      then (inl (EEXIST p), fs)
      else
        match resolve 40 (files fs) p with
        | None => (inl (ELOOP p), fs)
        | Some q =>
            match files fs !! q with
            | Some i =>
                if Stat.S_ISDIR (st_mode i) then (inl (EISDIR p), fs)
                else if negb (may_write fs i) then (inl (EACCES p), fs)
                else if Stat.S_ISREG (st_mode i) then
                  let i' := if has_flag flags O_TRUNC
                            then set_content i [] else i in
                  let '(fd, fs') :=
                    alloc_handle (set_files fs (<[q := i']> (files fs)))
                      (HFile q 0) in
                  (inr fd, fs')
                else (inl (ENXIO p), fs)
            | None =>
                if has_flag flags O_CREAT then make q
                else (inl (ENOENT p), fs)
            end
        end
  | None =>
      if has_flag flags O_CREAT then make p
      else (inl (ENOENT p), fs)
  end.

(** [os.fdopen(fd, mode)] wraps a descriptor that is already open: it
    opens nothing, so the ["w"] of its mode truncates nothing. *)
Definition do_fdopen (fs : FS) (fd : Z) : (native_exn + Z) * FS :=
  match handles fs !! fd with
  | Some (HFile _ _) => (inr fd, fs)
  | _ => (inl EBADF, fs)
  end.

(** [fout.write(data)]; the buffer of the file object is not modelled,
    the bytes reach the file at the call.  Bytes written by a process
    without privilege take the set-ID bits of the file with them. *)
Definition do_write (fs : FS) (fout : Z) (data : bytes)
    : (native_exn + Z) * FS :=
  match handles fs !! fout with
  | Some (HFile p offset) =>
      match files fs !! p with
      | Some i =>
          let m := if (euid fs =? 0) || bool_decide (data = [])
                   then st_mode i else drop_setid (st_mode i) in
          let i' := mkInode m (st_uid i) (st_gid i) (st_rdev i)
                      (splice (content i) offset data) (link_target i) in
          (inr (Z.of_nat (length data)),
           mkFS (<[p := i']> (files fs))
                (<[fout := HFile p (offset + length data)]> (handles fs))
                (next_fd fs) (euid fs) (egid fs) (umask fs))
      | None => (inl EBADF, fs)
      end
  | _ => (inl EBADF, fs)
  end.

Definition do_close (fs : FS) (h : Z) : (native_exn + Z) * FS :=
  match handles fs !! h with
  | Some _ => (inr 0, set_handles fs (delete h (handles fs)))
  | None => (inl EBADF, fs)
  end.

(** [os.mknod(p, mode, device)].  The C library passes on a device
    number of 32 bits only; the kernel refuses a type it cannot make,
    then a path that is taken or has no parent, then a device from a
    process without privilege. *)
Definition do_mknod (fs : FS) (p : string) (mode device : Z)
    : (native_exn + Z) * FS :=
  let fmt := Stat.S_IFMT mode in
  let is_dev := bool_decide (fmt ∈ [Stat.S_IFCHR; Stat.S_IFBLK]) in
  let made :=
    create Unnamed fs p
      (Z.lor (if fmt =? 0 then Stat.S_IFREG else fmt)
         (mask (Stat.S_IMODE mode) (umask fs)))
      (if is_dev then device else 0) [] "" in
  if 2 ^ 32 <=? device then (inl EINVAL, fs)
  else if fmt =? Stat.S_IFDIR then (inl (os_error 1 Unnamed), fs)
  else if negb (bool_decide
                  (fmt ∈ [0; Stat.S_IFREG; Stat.S_IFCHR; Stat.S_IFBLK;
                          Stat.S_IFIFO; Stat.S_IFSOCK]))
  then (inl EINVAL, fs)
  else if is_dev && negb (euid fs =? 0) then
    match made with
    | (inl e, _) => (inl e, fs)
    | (inr _, _) => (inl (os_error 1 Unnamed), fs)
    end
  else made.

(** [sock.bind(address)] for a socket of the family [AF_UNIX]. *)
Definition do_bind (fs : FS) (sock : Z) (address : string)
    : (native_exn + Z) * FS :=
  match handles fs !! sock with
  | Some HSocket =>
      if (sun_path_size <=? String.length address)%nat
      then (inl path_too_long, fs)
      else
        match files fs !! address with
        | Some _ => (inl EADDRINUSE, fs)
        | None =>
            create Unnamed fs address
              (Z.lor Stat.S_IFSOCK (mask 0x1FF (umask fs))) 0 [] ""
        end
  | _ => (inl EBADF, fs)
  end.

(** [os.chmod(p, mode)]: a process without privilege that is not in
    the group of the object cannot make it set-group-ID. *)
Definition do_chmod (fs : FS) (p : string) (mode : Z)
    : (native_exn + Z) * FS :=
  match resolve 40 (files fs) p with
  | None => (inl (ELOOP p), fs)
  | Some q =>
      match files fs !! q with
      | None => (inl (ENOENT p), fs)
      | Some i =>
          if (euid fs =? 0) || (euid fs =? st_uid i) then
            let perm :=
              if negb (euid fs =? 0) && negb (egid fs =? st_gid i)
              then clear_bits (Stat.S_IMODE mode) Stat.S_ISGID
              else Stat.S_IMODE mode in
            let i' := set_mode i (Z.lor (Stat.S_IFMT (st_mode i)) perm) in
            (inr 0, set_files fs (<[q := i']> (files fs)))
          else (inl (EPERM p), fs)
      end
  end.

#[export] Instance fs_os : Os FS :=
  fun c fs =>
    match c with
    | mkdir p mode =>
        create (Named p) fs p
          (Z.lor Stat.S_IFDIR (mask (Z.land mode 0x3FF) (umask fs)))
          0 [] ""
    | open p flags mode => do_open fs p flags mode
    | fdopen fd _ => do_fdopen fs fd
    | write fout data => do_write fs fout data
    | close fout => do_close fs fout
    | lchown p uid gid => chown_at (Named p) fs p uid gid
    | fchown fd uid gid =>
        match handles fs !! fd with
        | Some (HFile p _) => chown_at Unnamed fs p uid gid
        | Some HSocket => (inr 0, fs)
        | None => (inl EBADF, fs)
        end
    | symlink src dst =>
        if String.eqb src "" then (inl (os_error 2 (Named2 src dst)), fs)
        else create (Named2 src dst) fs dst
               (Z.lor Stat.S_IFLNK 0x1FF) 0 [] src
    | mknod p mode device => do_mknod fs p mode device
    | socket family type =>
        let '(fd, fs') := alloc_handle fs HSocket in (inr fd, fs')
    | bind sock address => do_bind fs sock address
    | sock_close sock => do_close fs sock
    | chmod p mode => do_chmod fs p mode
    end.

(** What [os.lstat], [open(p, "rb").read()] and [os.readlink] observe. *)
Definition lstat (fs : FS) (p : string) : option inode := files fs !! p.

Definition read_back (fs : FS) (p : string) : option bytes :=
  match files fs !! p with
  | Some i => if Stat.S_ISREG (st_mode i) then Some (content i) else None
  | None => None
  end.

Definition readlink (fs : FS) (p : string) : option string :=
  match files fs !! p with
  | Some i =>
      if Stat.S_ISLNK (st_mode i) then Some (link_target i) else None
  | None => None
  end.

(** The regular file at [p] is open on [fd]; [w] has been written from
    the start over what was [old], and the offset is after it. *)
Definition written_so_far (fs : FS) (fd : Z) (p : string) (w old : bytes)
    : Prop :=
  ∃ i, handles fs !! fd = Some (HFile p (length w))
       ∧ files fs !! p = Some i
       ∧ content i = w ++ skipn (length w) old
       ∧ Stat.S_ISREG (st_mode i) = true.

(** What [write_file] finds at the resolved path: nothing, below an
    existing directory, or a regular file holding [old] that the
    process may write to. *)
Definition writable_at (fs : FS) (p : string) (old : bytes) : Prop :=
  (files fs !! p = None ∧ check_parent fs p = None ∧ old = [])
  ∨ (∃ i0, files fs !! p = Some i0 ∧ Stat.S_ISREG (st_mode i0) = true
           ∧ may_write fs i0 = true ∧ old = content i0).

(** Between [fs] and [fs'] no owner changed: the process is the same,
    no path disappeared, every inode that was there has the owner and
    group it had, and every new inode has the user of the process and,
    as group, that of the process or that of the directory it is in. *)
Definition owners_default (fs fs' : FS) : Prop :=
  euid fs' = euid fs ∧ egid fs' = egid fs
  ∧ (∀ p, files fs' !! p = None → files fs !! p = None)
  ∧ ∀ p i', files fs' !! p = Some i' →
            match files fs !! p with
            | Some i => st_uid i' = st_uid i ∧ st_gid i' = st_gid i
            | None =>
                st_uid i' = euid fs
                ∧ (st_gid i' = egid fs
                   ∨ ∃ d, files fs' !! parent_of p = Some d
                          ∧ st_gid i' = st_gid d)
            end.

(** A method body that, run next to any reader, changes no owner. *)
Definition keeps_owners {R A : Type} (m : M (FS * R) A) : Prop :=
  ∀ fs r a fs' r', m (fs, r) = Some (a, (fs', r')) → owners_default fs fs'.

(** A tree holding only the directory [root], owned by the effective
    user, with nothing open. *)
Definition empty_tree (root : string) (euid egid umask : Z) : FS :=
  mkFS {[ root := mkInode (Z.lor Stat.S_IFDIR 0x1ED) euid egid 0 [] "" ]}
       ∅ 3 euid egid umask.

End ModelFS.

Import ModelFS.
(* ===================================================================== *)
(** ** Device numbers *)
(* ===================================================================== *)

(** Modelled from the spec: the tests take [makedev], [major] and [minor]
    from [dirdiff.osshim], which is not part of the sources at hand.  The
    specification calls [rdev] a platform-encoded (major, minor) pair; this
    is the encoding of Linux (glibc's [gnu_dev_makedev], [gnu_dev_major]
    and [gnu_dev_minor]), which [os.makedev], [os.major] and [os.minor]
    expose. *)
Module OsShim.




End OsShim.

(* ===================================================================== *)
(** ** Vocabulary for recorded runs *)
(* ===================================================================== *)

Module Trace.

(** The exception a recorded call ended with, if it raised. *)
Definition failure (ev : event) : option native_exn :=
  match ev with
  | Called _ (inl e) => Some e
  | Read _ (inl e) => Some e
  | _ => None
  end.

Definition is_chown_event (ev : event) : bool :=
  match ev with
  | Called c _ => is_chown c
  | Read _ _ => false
  end.


(** The path a call creates or changes an object at. *)
Definition path_of (c : call) : option string :=
  match c with
  | mkdir p _ | open p _ _ | lchown p _ _ | mknod p _ _ | chmod p _ =>
      Some p
  | symlink _ dst => Some dst
  | bind _ address => Some address
  | fdopen _ _ | write _ _ | close _ | fchown _ _ _ | socket _ _
  | sock_close _ => None
  end.

Definition event_path (ev : event) : option string :=
  match ev with
  | Called c _ => path_of c
  | Read _ _ => None
  end.

Definition is_OSError (e : native_exn) : bool :=
  match e with
  | OSError _ _ => true
  | OtherError _ _ => false
  end.

(** The exception line 29 of the source raises for [exc]. *)
Definition ownership_failure (exc : native_exn) : exn :=
  DirDiffOutputException ("failed to chown object: " +:+ str exc) (Some exc).

(** The exception line 62 of the source raises. *)
Definition unsupported_type : exn :=
  DirDiffOutputException "Unsupported file type" None.

(** Two exception objects that a handler can tell apart by their
    message and by nothing else. *)
Definition only_message_differs (e1 e2 : exn) : Prop :=
  class_of e1 = class_of e2
  ∧ cause_of e1 = cause_of e2
  ∧ message_of e1 ≠ message_of e2.

Definition is_ownership_failure (e : exn) : Prop :=
  ∃ exc, e = ownership_failure exc.

(** The ownership call of [_fixup_owners]. *)
Definition chown_call (full_path : string) (st : StatInfo) (fd : Z) : call :=
  if fd =? -1 then lchown full_path (uid st) (gid st)
  else fchown fd (uid st) (gid st).

(** How [_fixup_owners] ends when its ownership call ended with [res]. *)
Definition fixup_outcome (res : native_exn + Z) : outcome unit :=
  match res with
  | inr _ => Returns tt
  | inl (OSError errno text) =>
      Raises (ownership_failure (OSError errno text))
  | inl e => Raises (Native e)
  end.

(** The calls of one run of [_fixup_owners] and how the run ends. *)
Inductive fixup_trace (self : OutputBackendFile) (full_path : string)
    (st : StatInfo) (fd : Z) : list event -> outcome unit -> Prop :=
| fixup_off :
    preserve_owners self = false ->
    fixup_trace self full_path st fd [] (Returns tt)
| fixup_on res :
    preserve_owners self = true ->
    fixup_trace self full_path st fd
      [Called (chown_call full_path st fd) res] (fixup_outcome res).

(** A creating call that ended with [res], followed by the ownership
    step when it succeeded. *)
Inductive then_fixup (self : OutputBackendFile) (full_path : string)
    (st : StatInfo) (fd : Z)
    : native_exn + Z -> list event -> outcome unit -> Prop :=
| then_fixup_raised e :
    then_fixup self full_path st fd (inl e) [] (Raises (Native e))
| then_fixup_returned v evs r :
    fixup_trace self full_path st fd evs r ->
    then_fixup self full_path st fd (inr v) evs r.

(** The calls of one run of the copy loop writing to [fout]. *)
Inductive streamed (fout : Z) : list event -> outcome unit -> Prop :=
| streamed_end :
    streamed fout [Read (2 ^ 16) (inr [])] (Returns tt)
| streamed_read_raised e :
    streamed fout [Read (2 ^ 16) (inl e)] (Raises (Native e))
| streamed_write_raised chunk e :
    chunk ≠ [] ->
    streamed fout
      [Read (2 ^ 16) (inr chunk); Called (write fout chunk) (inl e)]
      (Raises (Native e))
| streamed_step chunk v evs r :
    chunk ≠ [] ->
    streamed fout evs r ->
    streamed fout
      (Read (2 ^ 16) (inr chunk) :: Called (write fout chunk) (inr v) :: evs)
      r.

(** How a [with] block ends when its body ended with [r] and closing
    the file ended with [cl]. *)
Definition after_close (r : outcome unit) (cl : native_exn + Z)
    : outcome unit :=
  match cl with
  | inl e => Raises (Native e)
  | inr _ => r
  end.

Section Runs.
Variables (self : OutputBackendFile) (path : string) (st : StatInfo).

Let full_path := _full_path self path.

Inductive dir_trace : list event -> outcome unit -> Prop :=
| dir_run res evs r :
    then_fixup self full_path st (-1) res evs r ->
    dir_trace
      (Called (mkdir full_path (Stat.S_IMODE (mode st))) res :: evs) r.

Inductive symlink_trace (linkname : string)
    : list event -> outcome unit -> Prop :=
| symlink_run res evs r :
    then_fixup self full_path st (-1) res evs r ->
    symlink_trace linkname
      (Called (symlink linkname full_path) res :: evs) r.

Inductive file_trace : list event -> outcome unit -> Prop :=
| file_open_raised e :
    file_trace
      [Called (open full_path (Z.lor O_WRONLY O_CREAT)
                 (Stat.S_IMODE (mode st))) (inl e)]
      (Raises (Native e))
| file_fdopen_raised fd e :
    file_trace
      [Called (open full_path (Z.lor O_WRONLY O_CREAT)
                 (Stat.S_IMODE (mode st))) (inr fd);
       Called (fdopen fd "wb") (inl e)]
      (Raises (Native e))
| file_copy_raised fd fout loop e cl :
    streamed fout loop (Raises e) ->
    file_trace
      (Called (open full_path (Z.lor O_WRONLY O_CREAT)
                 (Stat.S_IMODE (mode st))) (inr fd)
       :: Called (fdopen fd "wb") (inr fout)
       :: loop ++ [Called (close fout) cl])
      (after_close (Raises e) cl)
| file_copied fd fout loop own r cl :
    streamed fout loop (Returns tt) ->
    fixup_trace self full_path st fd own r ->
    file_trace
      (Called (open full_path (Z.lor O_WRONLY O_CREAT)
                 (Stat.S_IMODE (mode st))) (inr fd)
       :: Called (fdopen fd "wb") (inr fout)
       :: loop ++ own ++ [Called (close fout) cl])
      (after_close r cl).

Inductive other_trace : list event -> outcome unit -> Prop :=
| other_mknod res evs r :
    Stat.S_IFMT (mode st) ∈ [Stat.S_IFCHR; Stat.S_IFBLK; Stat.S_IFIFO] ->
    then_fixup self full_path st (-1) res evs r ->
    other_trace
      (Called (mknod full_path (mode st) (rdev st)) res :: evs) r
| other_socket_raised e :
    Stat.S_IFMT (mode st) = Stat.S_IFSOCK ->
    other_trace [Called (socket AF_UNIX SOCK_DGRAM) (inl e)]
      (Raises (Native e))
| other_bind_raised sock e :
    Stat.S_IFMT (mode st) = Stat.S_IFSOCK ->
    other_trace
      [Called (socket AF_UNIX SOCK_DGRAM) (inr sock);
       Called (bind sock full_path) (inl e)]
      (Raises (Native e))
| other_sock_close_raised sock v e :
    Stat.S_IFMT (mode st) = Stat.S_IFSOCK ->
    other_trace
      [Called (socket AF_UNIX SOCK_DGRAM) (inr sock);
       Called (bind sock full_path) (inr v);
       Called (sock_close sock) (inl e)]
      (Raises (Native e))
| other_socket sock v v' res evs r :
    Stat.S_IFMT (mode st) = Stat.S_IFSOCK ->
    then_fixup self full_path st (-1) res evs r ->
    other_trace
      (Called (socket AF_UNIX SOCK_DGRAM) (inr sock)
       :: Called (bind sock full_path) (inr v)
       :: Called (sock_close sock) (inr v')
       :: Called (chmod full_path (Stat.S_IMODE (mode st))) res
       :: evs) r
| other_unsupported :
    Stat.S_IFMT (mode st)
      ∉ [Stat.S_IFCHR; Stat.S_IFBLK; Stat.S_IFIFO; Stat.S_IFSOCK] ->
    other_trace [] (Raises unsupported_type).
End Runs.

(** The exception of a run is the one a recorded call raised, passed
    on as it was, unless the call is an ownership call whose [OSError]
    got wrapped, or the exception is the one for an unsupported type. *)
Definition surfaced (evs : list event) (r : outcome unit) : Prop :=
  match r with
  | Returns _ => True
  | Raises (Native e) =>
      ∃ ev, ev ∈ evs ∧ failure ev = Some e
            ∧ (is_chown_event ev = true → is_OSError e = false)
  | Raises (DirDiffOutputException msg (Some exc)) =>
      ∃ c, Called c (inl exc) ∈ evs ∧ is_chown c = true
           ∧ is_OSError exc = true
           ∧ msg = "failed to chown object: " +:+ str exc
  | Raises (DirDiffOutputException msg None) =>
      msg = "Unsupported file type"
  end.

(** Whenever a call other than an ownership call raised, the run ends
    with a native exception. *)
Definition native_surfaces (evs : list event) (r : outcome unit) : Prop :=
  ∀ ev e, ev ∈ evs → failure ev = Some e → is_chown_event ev = false →
          ∃ e', r = Raises (Native e').

(** Every path an event names is [p]. *)
Definition targets_only (p : string) (evs : list event) : Prop :=
  Forall (λ ev, ∀ q, event_path ev = Some q → q = p) evs.

(** The sizes of the chunks written, in order. *)
Definition written_sizes (evs : list event) : list Z :=
  omap (λ ev, match ev with
              | Called (write _ data) _ => Some (Z.of_nat (length data))
              | _ => None
              end) evs.

Definition no_chown (evs : list event) : Prop :=
  Forall (λ ev, is_chown_event ev = false) evs.

(** [p] is [root] or lies below it. *)
Definition within (root p : string) : bool :=
  String.eqb p root || PosixPath.startswith p (root +:+ "/").

(** The four facts every method's run has; [p] is the resolved path. *)
Definition run_facts (self : OutputBackendFile) (p : string)
    (evs : list event) (r : outcome unit) : Prop :=
  surfaced evs r
  ∧ native_surfaces evs r
  ∧ targets_only p evs
  ∧ (preserve_owners self = false →
     no_chown evs ∧ ∀ e, r = Raises e → ¬ is_ownership_failure e).

End Trace.

Import Trace.

(* ===================================================================== *)
(** ** Sample inputs *)
(* ===================================================================== *)

Module Sample.

Definition plain : OutputBackendFile := init_default "/out".
Definition preserving : OutputBackendFile := init "/out" true.

(** [/out], owned by user 1000, umask 022. *)
Definition tree : FS := empty_tree "/out" 1000 1000 0x12.

(** The same tree seen by a privileged process. *)
Definition root_tree : FS :=
  mkFS (files tree) ∅ 3 0 0 0x12.

(** [0o644 | S_IFREG], as in [test_file_write_reg]. *)
Definition st_reg : StatInfo :=
  mkStatInfo (Z.lor 0x1A4 Stat.S_IFREG) 1234 4567 14 0 0.

(** [0o755 | S_IFDIR], as in [test_file_write_dir]. *)
Definition st_dir : StatInfo :=
  mkStatInfo (Z.lor 0x1ED Stat.S_IFDIR) 1234 4567 0 0 0.

(** [0o777 | S_IFLNK], as in [test_file_write_link]. *)
Definition st_lnk : StatInfo :=
  mkStatInfo (Z.lor 0x1FF Stat.S_IFLNK) 1234 4567 0 0 0.



Definition hello : bytes := bytes_lit "Hello dirdiff!".

(** [test_file_write_reg] in a recording world: before, and after. *)
Definition before_write : Traced (FS * BytesIO) :=
  mkTraced [] (tree, new_BytesIO hello).

Definition write_events : list event :=
  [Called (open "/out/my-file" 65 420) (inr 3);
   Called (fdopen 3 "wb") (inr 3);
   Read 65536 (inr hello);
   Called (write 3 hello) (inr 14);
   Read 65536 (inr []);
   Called (close 3) (inr 0)].

Definition after_write : Traced (FS * BytesIO) :=
  mkTraced write_events
    (mkFS (<["/out/my-file" := mkInode 33188 1000 1000 0 hello ""]>
             (files tree))
          (delete 3 (<[3 := HFile "/out/my-file" 14]> ∅))
          4 1000 1000 0x12,
     mkBytesIO hello 14).

(** The tree once [my-file] holds [hello]. *)
Definition tree_with_file : FS :=
  set_files tree
    (<["/out/my-file" := mkInode 33188 1000 1000 0 hello ""]> (files tree)).

(** 70000 bytes: one full chunk of 64 KiB and a shorter one. *)
Definition big : bytes := repeat "x"%byte (Z.to_nat 70000).

(** A reader that returns [b""] between two pieces of its data. *)
Definition stuttering : Script :=
  [bytes_lit "Hello "; []; bytes_lit "dirdiff!"].

(** The scenario of the specification: directory [d], file [d/f]
    holding [b"hello"], link [d/l] to [f]. *)
Definition scenario : M (FS * BytesIO) unit :=
  write_dir plain "d" st_dir;;
  write_file 2 plain "d/f" st_reg (reader_of BytesIO_read);;
  write_symlink plain "d/l" st_lnk "f".

(** A backend rooted at [/srv/out] on a host that also has [/etc]. *)
Definition rooted : OutputBackendFile := init_default "/srv/out".

Definition host_dir : inode := mkInode (Z.lor Stat.S_IFDIR 0x1ED) 0 0 0 [] "".

Definition host_tree : FS :=
  mkFS (list_to_map [("/", host_dir); ("/etc", host_dir);
                     ("/srv", host_dir); ("/srv/out", host_dir)])
       ∅ 3 0 0 0x12.

End Sample.

(* ===================================================================== *)
(** ** The checks of the tests *)
(* ===================================================================== *)

Module Tests.


End Tests.

(* ===================================================================== *)
(** ** More vocabulary for recorded runs and for the model tree *)
(* ===================================================================== *)

Module Trace2.

Definition is_close_event (ev : event) : bool :=
  match ev with
  | Called (close _) _ => true
  | _ => false
  end.

(** [fdopen] returned a file object in [evs]. *)
Definition file_object_made (evs : list event) : Prop :=
  ∃ fd fout, Called (fdopen fd "wb") (inr fout) ∈ evs.

End Trace2.

Import Trace2.

Module Outcome.

















End Outcome.

Import Outcome.

Module Paths.

(** A component: a string without a separator in it. *)
Definition no_sep (c : string) : Prop :=
  Forall (λ ch, ch ≠ "/"%char) (list_ascii_of_string c).

(** A name: a component other than the empty one, [.] and [..]. *)
Definition is_name (c : string) : Prop :=
  no_sep c ∧ c ≠ "" ∧ c ≠ "." ∧ c ≠ "..".

(** The components [normpath] does not skip. *)
Definition kept (c : string) : bool :=
  negb (String.eqb c "" || String.eqb c ".").

(** The absolute path with the components [cs]. *)
Definition abs_path (cs : list string) : string :=
  "/" +:+ String.concat "/" cs.

End Paths.

Import Paths.

(* ===================================================================== *)
(** * Properties *)
(* ===================================================================== *)

Example normpath_ex1 : PosixPath.normpath "/out/./a//b/../c" = "/out/a/c".
Proof. reflexivity. Qed.
Example normpath_ex2 : PosixPath.normpath "a/../.." = "..".
Proof. reflexivity. Qed.
Example normpath_ex3 : PosixPath.normpath "//x/../.." = "//".
Proof. reflexivity. Qed.
Example join_ex1 : PosixPath.join "/out" "d/f" = "/out/d/f".
Proof. reflexivity. Qed.
Example join_ex2 : PosixPath.join "/out/" "/etc" = "/etc".
Proof. reflexivity. Qed.
Example dirname_ex1 : PosixPath.dirname "/out/d/f" = "/out/d".
Proof. reflexivity. Qed.
Example dirname_ex2 : PosixPath.dirname "/out" = "/".
Proof. reflexivity. Qed.
Example dirname_ex3 : PosixPath.dirname "f" = "".
Proof. reflexivity. Qed.

(** The scenario on the model tree: the directory has mode [0o755], the
    file reads back, the link reads back and leads to the file. *)
Example scenario_on_model_tree :
  match Sample.scenario (Sample.tree, new_BytesIO (bytes_lit "hello")) with
  | Some (Returns _, (fs, _)) =>
      Some (option_map st_mode (lstat fs "/out/d"),
            read_back fs "/out/d/f",
            readlink fs "/out/d/l",
            resolve 40 (files fs) "/out/d/l")
  | _ => None
  end
  = Some (Some (Z.lor Stat.S_IFDIR 0x1ED), Some (bytes_lit "hello"),
          Some "f", Some "/out/d/f").
Proof. vm_compute. reflexivity. Qed.

(* ===================================================================== *)
(** ** Runs in a recording world *)
(* ===================================================================== *)

(** Each method, run over any provider wrapped in the recorder, adds the
    events its trace relation describes. *)
Section TracedRuns.
Context {W : Type} `{Os W}.
Implicit Types (t : Traced W) (self : OutputBackendFile) (st : StatInfo).

Lemma bind_sys {B} (c : call) (k : Z -> M (Traced W) B) t :
  (sys c ≫= k) t =
    match perform c (world t) with
    | (inl e, w') =>
        Some (Raises (Native e), mkTraced (events t ++ [Called c (inl e)]) w')
    | (inr v, w') => k v (mkTraced (events t ++ [Called c (inr v)]) w')
    end.
Proof.
  unfold mbind, M_bind, Py.bind, sys, perform at 1, traced_os.
  destruct (perform c (world t)) as [[e|v] w']; reflexivity.
Qed.

Lemma bind_read {B} (rd : Reader W) (n : Z) (k : bytes -> M (Traced W) B) t :
  (read_from (traced_reader rd) n ≫= k) t =
    match rd n (world t) with
    | (inl e, w') =>
        Some (Raises (Native e), mkTraced (events t ++ [Read n (inl e)]) w')
    | (inr data, w') => k data (mkTraced (events t ++ [Read n (inr data)]) w')
    end.
Proof.
  unfold mbind, M_bind, Py.bind, read_from, traced_reader.
  destruct (rd n (world t)) as [[e|v] w']; reflexivity.
Qed.

Lemma fixup_run self full_path st fd t :
  ∃ evs r t',
    _fixup_owners self full_path st fd t = Some (r, t')
    ∧ events t' = events t ++ evs
    ∧ fixup_trace self full_path st fd evs r.
Proof.
  unfold _fixup_owners.
  destruct (preserve_owners self) eqn:Hp; simpl.
  - unfold try_except_OSError.
    assert (Hc : (if fd =? -1
                  then sys (lchown full_path (uid st) (gid st));; Py.ret ()
                  else sys (fchown fd (uid st) (gid st));; Py.ret ())
                 = (sys (chown_call full_path st fd) ;; Py.ret () : M (Traced W) ())).
    { unfold chown_call. destruct (fd =? -1); reflexivity. }
    rewrite Hc, bind_sys.
    destruct (perform (chown_call full_path st fd) (world t)) as [[e|v] w'] eqn:Hq.
    + exists [Called (chown_call full_path st fd) (inl e)].
      destruct e as [errno text|cls text]; simpl;
        eexists _, _; (split; [reflexivity|]); (split; [reflexivity|]).
      * exact (fixup_on self full_path st fd (inl (OSError errno text)) Hp).
      * exact (fixup_on self full_path st fd (inl (OtherError cls text)) Hp).
    + eexists _, _, _. split; [reflexivity|]. split; [reflexivity|].
      exact (fixup_on self full_path st fd (inr v) Hp).
  - exists [], (Returns tt), t. split; [reflexivity|].
    split; [symmetry; apply app_nil_r|]. constructor. assumption.
Qed.

Lemma bind_assoc {A B C} (m : M (Traced W) A) (f : A -> M (Traced W) B)
    (g : B -> M (Traced W) C) t :
  ((m ≫= f) ≫= g) t = (m ≫= (λ x, f x ≫= g)) t.
Proof.
  unfold mbind, M_bind, Py.bind.
  destruct (m t) as [[[a|e] t1]|]; reflexivity.
Qed.

Lemma create_then_fixup (c : call) (k : Z -> M (Traced W) unit)
    self full_path st t :
  (∀ v t1, k v t1 = _fixup_owners self full_path st (-1) t1) →
  ∃ res evs r t',
    (sys c ≫= k) t = Some (r, t')
    ∧ events t' = events t ++ Called c res :: evs
    ∧ then_fixup self full_path st (-1) res evs r.
Proof.
  intros Hk. rewrite bind_sys.
  destruct (perform c (world t)) as [[e|v] w'].
  - exists (inl e), [], (Raises (Native e)). eexists.
    split; [reflexivity|]. split; [reflexivity|]. constructor.
  - destruct (fixup_run self full_path st (-1)
                (mkTraced (events t ++ [Called c (inr v)]) w'))
      as (evs & r & t' & Hrun & Hev & Htr).
    exists (inr v), evs, r, t'. split; [rewrite Hk; exact Hrun|].
    split; [|constructor; exact Htr].
    rewrite Hev. simpl. rewrite <- app_assoc. reflexivity.
Qed.

Lemma write_dir_run self path st t :
  ∃ evs r t',
    write_dir self path st t = Some (r, t')
    ∧ events t' = events t ++ evs
    ∧ dir_trace self path st evs r.
Proof.
  unfold write_dir.
  destruct (create_then_fixup
              (mkdir (_full_path self path) (Stat.S_IMODE (mode st)))
              (λ _, _fixup_owners self (_full_path self path) st (-1))
              self (_full_path self path) st t)
    as (res & evs & r & t' & Hrun & Hev & Htr); [reflexivity|].
  exists (Called (mkdir (_full_path self path) (Stat.S_IMODE (mode st))) res
          :: evs), r, t'.
  split; [exact Hrun|]. split; [exact Hev|]. constructor. exact Htr.
Qed.

Lemma write_symlink_run self path st linkname t :
  ∃ evs r t',
    write_symlink self path st linkname t = Some (r, t')
    ∧ events t' = events t ++ evs
    ∧ symlink_trace self path st linkname evs r.
Proof.
  unfold write_symlink.
  destruct (create_then_fixup (symlink linkname (_full_path self path))
              (λ _, _fixup_owners self (_full_path self path) st (-1))
              self (_full_path self path) st t)
    as (res & evs & r & t' & Hrun & Hev & Htr); [reflexivity|].
  exists (Called (symlink linkname (_full_path self path)) res :: evs), r, t'.
  split; [exact Hrun|]. split; [exact Hev|]. constructor. exact Htr.
Qed.

Lemma copy_loop_run (rd : Reader W) fout fuel :
  ∀ t r t',
    copy_loop fuel (traced_reader rd) fout t = Some (r, t') →
    ∃ evs, events t' = events t ++ evs ∧ streamed fout evs r.
Proof.
  induction fuel as [|fuel IH]; intros t r t' Hrun; [discriminate|].
  cbn [copy_loop] in Hrun. rewrite bind_read in Hrun.
  destruct (rd (2 ^ 16) (world t)) as [[e|data] w'].
  - inversion Hrun; subst. eexists. split; [reflexivity|]. constructor.
  - case_bool_decide as Hd.
    + subst data. inversion Hrun; subst.
      eexists. split; [reflexivity|]. constructor.
    + rewrite bind_sys in Hrun. cbn [world events] in Hrun.
      destruct (perform (write fout data) w') as [[e|v] w''].
      * inversion Hrun; subst. cbn [events].
        exists [Read (2 ^ 16) (inr data); Called (write fout data) (inl e)].
        split; [rewrite <- app_assoc; reflexivity|].
        constructor. exact Hd.
      * apply IH in Hrun as (evs & Hev & Hst). cbn [events] in Hev.
        exists (Read (2 ^ 16) (inr data)
                :: Called (write fout data) (inr v) :: evs).
        split; [rewrite Hev, <- !app_assoc; reflexivity|].
        constructor; assumption.
Qed.

Lemma write_file_run fuel self path st (rd : Reader W) t r t' :
  write_file fuel self path st (traced_reader rd) t = Some (r, t') →
  ∃ evs, events t' = events t ++ evs ∧ file_trace self path st evs r.
Proof.
  unfold write_file. intros Hrun. rewrite bind_sys in Hrun.
  set (full := _full_path self path) in *.
  set (copen := open full (Z.lor O_WRONLY O_CREAT) (Stat.S_IMODE (mode st)))
    in *.
  destruct (perform copen (world t)) as [[e|fd] w1].
  { inversion Hrun; subst. eexists. split; [reflexivity|]. constructor. }
  rewrite bind_sys in Hrun. cbn [world events] in Hrun.
  destruct (perform (fdopen fd "wb") w1) as [[e|fout] w2].
  { inversion Hrun; subst. cbn [events].
    exists [Called copen (inr fd); Called (fdopen fd "wb") (inl e)].
    split; [rewrite <- app_assoc; reflexivity|]. constructor. }
  unfold try_finally in Hrun.
  set (t2 := mkTraced _ w2) in Hrun.
  unfold mbind at 1, M_bind at 1, Py.bind at 1 in Hrun.
  destruct (copy_loop fuel (traced_reader rd) fout t2)
    as [[rl t3]|] eqn:Hloop; [|discriminate].
  apply copy_loop_run in Hloop as (loop & Hev3 & Hst).
  assert (Hev2 : events t2 = events t
                   ++ [Called copen (inr fd);
                       Called (fdopen fd "wb") (inr fout)]).
  { subst t2. cbn [events]. rewrite <- app_assoc. reflexivity. }
  destruct rl as [[]|e].
  - destruct (fixup_run self full st fd t3)
      as (own & ro & t4 & Hfix & Hev4 & Hown).
    rewrite Hfix in Hrun.
    unfold sys, perform, traced_os in Hrun.
    destruct (perform (close fout) (world t4)) as [[e|v] w5];
      inversion Hrun; subst; cbn [events];
      eexists (Called copen (inr fd) :: Called (fdopen fd "wb") (inr fout)
               :: loop ++ own ++ [Called (close fout) _]);
      (split;
       [rewrite Hev4, Hev3, Hev2, <- !app_assoc; reflexivity|]).
    + exact (file_copied self path st fd fout loop own ro (inl e) Hst Hown).
    + exact (file_copied self path st fd fout loop own r (inr v) Hst Hown).
  - unfold sys, perform, traced_os in Hrun.
    destruct (perform (close fout) (world t3)) as [[e'|v] w5];
      inversion Hrun; subst; cbn [events];
      eexists (Called copen (inr fd) :: Called (fdopen fd "wb") (inr fout)
               :: loop ++ [Called (close fout) _]);
      (split; [rewrite Hev3, Hev2, <- !app_assoc; reflexivity|]).
    + exact (file_copy_raised self path st fd fout loop e (inl e') Hst).
    + exact (file_copy_raised self path st fd fout loop e (inr v) Hst).
Qed.

Lemma write_other_run self path st t :
  ∃ evs r t',
    write_other self path st t = Some (r, t')
    ∧ events t' = events t ++ evs
    ∧ other_trace self path st evs r.
Proof.
  unfold write_other. set (full := _full_path self path).
  case_bool_decide as Hdev.
  - rewrite bind_assoc.
    destruct (create_then_fixup (mknod full (mode st) (rdev st))
                (λ _, mret tt ≫= λ _, _fixup_owners self full st (-1))
                self full st t)
      as (res & evs & r & t' & Hrun & Hev & Htr); [reflexivity|].
    exists (Called (mknod full (mode st) (rdev st)) res :: evs), r, t'.
    split; [exact Hrun|]. split; [exact Hev|].
    constructor; assumption.
  - destruct (Stat.S_ISSOCK (mode st)) eqn:Hsock.
    + apply Z.eqb_eq in Hsock.
      rewrite bind_assoc, bind_sys.
      destruct (perform (socket AF_UNIX SOCK_DGRAM) (world t))
        as [[e|sock] w1].
      { eexists _, _, _. split; [reflexivity|]. split; [reflexivity|].
        constructor. exact Hsock. }
      rewrite bind_assoc, bind_sys. cbn [world events].
      destruct (perform (bind sock full) w1) as [[e|v] w2].
      { eexists [_; _], _, _. split; [reflexivity|].
        split; [cbn [events]; rewrite <- app_assoc; reflexivity|].
        constructor. exact Hsock. }
      rewrite bind_assoc, bind_sys. cbn [world events].
      destruct (perform (sock_close sock) w2) as [[e|v'] w3].
      { eexists [_; _; _], _, _. split; [reflexivity|].
        split; [cbn [events]; rewrite <- !app_assoc; reflexivity|].
        constructor. exact Hsock. }
      rewrite bind_assoc.
      set (t3 := mkTraced _ w3).
      destruct (create_then_fixup
                  (chmod full (Stat.S_IMODE (mode st)))
                  (λ _, mret tt ≫= λ _, _fixup_owners self full st (-1))
                  self full st t3)
        as (res & evs & r & t' & Hrun & Hev & Htr); [reflexivity|].
      exists (Called (socket AF_UNIX SOCK_DGRAM) (inr sock)
              :: Called (bind sock full) (inr v)
              :: Called (sock_close sock) (inr v')
              :: Called (chmod full (Stat.S_IMODE (mode st))) res :: evs),
        r, t'.
      split; [exact Hrun|].
      split; [rewrite Hev; subst t3; cbn [events];
              rewrite <- !app_assoc; reflexivity|].
      constructor; assumption.
    + apply Z.eqb_neq in Hsock.
      exists [], (Raises unsupported_type), t.
      split; [reflexivity|]. split; [symmetry; apply app_nil_r|].
      constructor. intros Hin. apply Hdev.
      rewrite !elem_of_cons in Hin. rewrite !elem_of_cons.
      destruct Hin as [?|[?|[?|[?|Hnil]]]];
        [auto | auto | auto | contradiction | inversion Hnil].
Qed.
End TracedRuns.

(* ===================================================================== *)
(** ** What the trace relations imply *)
(* ===================================================================== *)

Lemma surfaced_mono evs evs' r :
  (∀ ev, ev ∈ evs → ev ∈ evs') → surfaced evs r → surfaced evs' r.
Proof.
  intros Hsub. destruct r as [[]|[e|msg [exc|]]]; simpl; [tauto | | | tauto].
  - intros (ev & Hin & Hf & Hc). exists ev. auto.
  - intros (c & Hin & Hc). exists c. split; [auto | exact Hc].
Qed.

Lemma fixup_trace_surfaced self full_path st fd evs r :
  fixup_trace self full_path st fd evs r → surfaced evs r.
Proof.
  destruct 1 as [Hp|res Hp]; [exact I|].
  destruct res as [[errno text|cls text]|v]; simpl; [| |exact I].
  - exists (chown_call full_path st fd).
    split; [apply list_elem_of_singleton; reflexivity|].
    split; [unfold chown_call; destruct (fd =? -1); reflexivity|].
    split; reflexivity.
  - eexists. split; [apply list_elem_of_singleton; reflexivity|].
    split; [reflexivity|]. intros _. reflexivity.
Qed.

Lemma fixup_trace_chown self full_path st fd evs r :
  fixup_trace self full_path st fd evs r →
  Forall (λ ev, is_chown_event ev = true) evs.
Proof.
  destruct 1 as [Hp|res Hp]; constructor; [|constructor].
  unfold chown_call. destruct (fd =? -1); reflexivity.
Qed.

Lemma fixup_trace_targets self full_path st fd evs r :
  fixup_trace self full_path st fd evs r → targets_only full_path evs.
Proof.
  destruct 1 as [Hp|res Hp]; constructor; [|constructor].
  intros q. unfold chown_call. destruct (fd =? -1); simpl; congruence.
Qed.

Lemma fixup_trace_off self full_path st fd evs r :
  preserve_owners self = false →
  fixup_trace self full_path st fd evs r → evs = [] ∧ r = Returns tt.
Proof. intros Hoff. destruct 1 as [Hp|res Hp]; [auto | congruence]. Qed.

Lemma chown_not_native evs r :
  Forall (λ ev, is_chown_event ev = true) evs → native_surfaces evs r.
Proof.
  intros Hall ev e Hin _ Hno. rewrite Forall_forall in Hall.
  apply Hall in Hin. congruence.
Qed.

Lemma streamed_surfaced fout evs r : streamed fout evs r → surfaced evs r.
Proof.
  induction 1 as [|e|chunk e Hne|chunk v evs r Hne Hst IH].
  - exact I.
  - eexists. split; [apply list_elem_of_singleton; reflexivity|].
    split; [reflexivity|]. discriminate.
  - exists (Called (write fout chunk) (inl e)).
    split; [set_solver|]. split; [reflexivity|]. discriminate.
  - eapply surfaced_mono; [|exact IH]. set_solver.
Qed.

Lemma streamed_raises_native fout evs e :
  streamed fout evs (Raises e) → ∃ n, e = Native n.
Proof.
  remember (Raises e) as r eqn:Hr. intros Hst. revert Hr.
  induction Hst; intros Hr; try discriminate; eauto; inversion Hr; eauto.
Qed.

Lemma streamed_returns_succeeded fout evs :
  streamed fout evs (Returns tt) → Forall (λ ev, failure ev = None) evs.
Proof.
  remember (Returns tt) as r eqn:Hr. intros Hst. revert Hr.
  induction Hst; intros Hr; try discriminate; repeat constructor; auto.
Qed.

Lemma streamed_no_chown fout evs r : streamed fout evs r → no_chown evs.
Proof. induction 1; repeat constructor; assumption. Qed.

Lemma streamed_targets fout evs r p : streamed fout evs r → targets_only p evs.
Proof.
  induction 1; repeat constructor; try assumption; intros q; discriminate.
Qed.

Lemma streamed_reads fout evs r :
  streamed fout evs r →
  Forall (λ ev, match ev with
                | Read n _ => n = 2 ^ 16
                | Called c _ => ∃ chunk, c = write fout chunk
                end) evs.
Proof. induction 1; repeat constructor; eauto. Qed.

Lemma then_fixup_surfaced self full_path st fd c res evs r :
  is_chown c = false →
  then_fixup self full_path st fd res evs r →
  surfaced (Called c res :: evs) r ∧ native_surfaces (Called c res :: evs) r.
Proof.
  intros Hc. destruct 1 as [e|v evs r Hfix]; split.
  - exists (Called c (inl e)). split; [set_solver|].
    split; [reflexivity|]. simpl. congruence.
  - intros ev e' _ _ _. eauto.
  - eapply surfaced_mono; [|eapply fixup_trace_surfaced; exact Hfix].
    set_solver.
  - intros ev e Hin Hf Hno. apply elem_of_cons in Hin as [->|Hin].
    + discriminate.
    + exact (chown_not_native evs r (fixup_trace_chown _ _ _ _ _ _ Hfix)
               ev e Hin Hf Hno).
Qed.

Lemma then_fixup_targets self full_path st fd c res evs r :
  (∀ q, path_of c = Some q → q = full_path) →
  then_fixup self full_path st fd res evs r →
  targets_only full_path (Called c res :: evs).
Proof.
  intros Hc. destruct 1 as [e|v evs r Hfix]; constructor; try exact Hc.
  - constructor.
  - eapply fixup_trace_targets; exact Hfix.
Qed.

Lemma then_fixup_off self full_path st fd c res evs r :
  preserve_owners self = false → is_chown c = false →
  then_fixup self full_path st fd res evs r →
  no_chown (Called c res :: evs) ∧ ∀ e, r = Raises e → ∃ n, e = Native n.
Proof.
  intros Hoff Hc. destruct 1 as [e|v evs r Hfix].
  - split; [repeat constructor; exact Hc|].
    intros e' He. inversion He. eauto.
  - destruct (fixup_trace_off _ _ _ _ _ _ Hoff Hfix) as [-> ->].
    split; [repeat constructor; exact Hc|]. discriminate.
Qed.

Lemma ownership_failure_not_native n : ¬ is_ownership_failure (Native n).
Proof. intros [exc Hexc]. discriminate. Qed.

Lemma unsupported_not_ownership : ¬ is_ownership_failure unsupported_type.
Proof. intros [exc Hexc]. discriminate. Qed.


Lemma then_fixup_facts self full_path st c res evs r :
  is_chown c = false →
  (∀ q, path_of c = Some q → q = full_path) →
  then_fixup self full_path st (-1) res evs r →
  run_facts self full_path (Called c res :: evs) r.
Proof.
  intros Hc Hp Htr.
  destruct (then_fixup_surfaced _ _ _ _ c _ _ _ Hc Htr) as [Hs Hn].
  split; [exact Hs|]. split; [exact Hn|].
  split; [eapply then_fixup_targets; eassumption|].
  intros Hoff.
  destruct (then_fixup_off _ _ _ _ c _ _ _ Hoff Hc Htr) as [Hno Hnat].
  split; [exact Hno|]. intros e He. destruct (Hnat e He) as [n ->].
  apply ownership_failure_not_native.
Qed.

Lemma dir_trace_facts self path st evs r :
  dir_trace self path st evs r → run_facts self (_full_path self path) evs r.
Proof.
  destruct 1 as [res evs r Htr].
  apply (then_fixup_facts _ _ st); [reflexivity| |exact Htr].
  simpl. congruence.
Qed.

Lemma symlink_trace_facts self path st linkname evs r :
  symlink_trace self path st linkname evs r →
  run_facts self (_full_path self path) evs r.
Proof.
  destruct 1 as [res evs r Htr].
  apply (then_fixup_facts _ _ st); [reflexivity| |exact Htr].
  simpl. congruence.
Qed.

(** Calls that succeeded in front of a run change none of its facts,
    provided they name no other path and are not ownership calls. *)
Lemma run_facts_after self p pre evs r :
  Forall (λ ev, failure ev = None) pre →
  no_chown pre → targets_only p pre →
  run_facts self p evs r → run_facts self p (pre ++ evs) r.
Proof.
  intros Hok Hnc Htg (Hs & Hn & Ht & Hoff).
  split; [|split; [|split]].
  - eapply surfaced_mono; [|exact Hs].
    intros ev Hin. apply elem_of_app. right. exact Hin.
  - intros ev e Hin Hf Hno. apply elem_of_app in Hin as [Hin|Hin].
    + rewrite Forall_forall in Hok. rewrite (Hok _ Hin) in Hf. discriminate.
    + eapply Hn; eassumption.
  - apply Forall_app. split; assumption.
  - intros Hp. destruct (Hoff Hp) as [Hno Hnot].
    split; [apply Forall_app; split; assumption | exact Hnot].
Qed.

(** A failed call that is not an ownership call, with its exception as
    the outcome. *)
Lemma run_facts_raised self p c e :
  is_chown c = false → (∀ q, path_of c = Some q → q = p) →
  run_facts self p [Called c (inl e)] (Raises (Native e)).
Proof.
  intros Hc Hp. split; [|split; [|split]].
  - exists (Called c (inl e)). split; [set_solver|].
    split; [reflexivity|]. simpl. congruence.
  - intros ev e' _ _ _. eauto.
  - repeat constructor. exact Hp.
  - intros _. split; [repeat constructor; exact Hc|].
    intros e' He. inversion He. apply ownership_failure_not_native.
Qed.

Lemma other_trace_facts self path st evs r :
  other_trace self path st evs r → run_facts self (_full_path self path) evs r.
Proof.
  set (p := _full_path self path).
  assert (Hpath : ∀ q : string, Some p = Some q → q = p) by congruence.
  assert (Hnone : ∀ q : string, None = Some q → q = p) by discriminate.
  destruct 1 as [res evs r Hdev Htr|e Hs|sock e Hs|sock v e Hs
                |sock v v' res evs r Hs Htr|Hun].
  - apply (then_fixup_facts _ _ st); [reflexivity|exact Hpath|exact Htr].
  - apply run_facts_raised; [reflexivity|exact Hnone].
  - apply (run_facts_after _ _ [_]); try (repeat constructor; assumption).
    apply run_facts_raised; [reflexivity|exact Hpath].
  - apply (run_facts_after _ _ [_; _]); try (repeat constructor; assumption).
    apply run_facts_raised; [reflexivity|exact Hnone].
  - apply (run_facts_after _ _ [_; _; _]);
      try (repeat constructor; assumption).
    apply (then_fixup_facts _ _ st); [reflexivity|exact Hpath|exact Htr].
  - split; [reflexivity|]. split; [|split].
    + intros ev e Hin. inversion Hin.
    + constructor.
    + intros _. split; [constructor|].
      intros e He. inversion He. apply unsupported_not_ownership.
Qed.

Lemma after_close_facts self p evs r fout cl :
  surfaced evs r →
  (∀ ev e, ev ∈ evs → failure ev = Some e → is_chown_event ev = false →
           ∃ e', r = Raises (Native e')) →
  targets_only p evs →
  (preserve_owners self = false →
   no_chown evs ∧ ∀ e, r = Raises e → ¬ is_ownership_failure e) →
  run_facts self p (evs ++ [Called (close fout) cl]) (after_close r cl).
Proof.
  intros Hs Hn Ht Hoff. split; [|split; [|split]].
  - destruct cl as [e|v]; simpl.
    + exists (Called (close fout) (inl e)).
      split; [apply elem_of_app; right; apply list_elem_of_singleton;
              reflexivity|].
      split; [reflexivity|]. discriminate.
    + eapply surfaced_mono; [|exact Hs].
      intros ev Hin. apply elem_of_app. left. exact Hin.
  - intros ev e Hin Hf Hno. destruct cl as [e'|v]; simpl; [eauto|].
    apply elem_of_app in Hin as [Hin|Hin]; [eapply Hn; eassumption|].
    apply list_elem_of_singleton in Hin. subst ev. discriminate.
  - apply Forall_app. split; [exact Ht|]. repeat constructor. discriminate.
  - intros Hp. destruct (Hoff Hp) as [Hno Hnot]. split.
    + apply Forall_app. split; [exact Hno|]. repeat constructor.
    + intros e He. destruct cl as [e'|v]; simpl in He.
      * inversion He. apply ownership_failure_not_native.
      * apply Hnot. exact He.
Qed.

Lemma file_trace_facts self path st evs r :
  file_trace self path st evs r → run_facts self (_full_path self path) evs r.
Proof.
  set (p := _full_path self path).
  assert (Hpath : ∀ q : string, Some p = Some q → q = p) by congruence.
  assert (Hnone : ∀ q : string, None = Some q → q = p) by discriminate.
  destruct 1 as [e|fd e|fd fout loop e cl Hst|fd fout loop own r cl Hst Hfix].
  - apply run_facts_raised; [reflexivity|exact Hpath].
  - apply (run_facts_after _ _ [_]); try (repeat constructor; assumption).
    apply run_facts_raised; [reflexivity|exact Hnone].
  - apply (run_facts_after _ _ [_; _]); try (repeat constructor; assumption).
    destruct (streamed_raises_native _ _ _ Hst) as [n ->].
    apply after_close_facts.
    + eapply streamed_surfaced; exact Hst.
    + intros ev e' _ _ _. eauto.
    + eapply streamed_targets; exact Hst.
    + intros _. split; [eapply streamed_no_chown; exact Hst|].
      intros e' He. inversion He. apply ownership_failure_not_native.
  - apply (run_facts_after _ _ [_; _]); try (repeat constructor; assumption).
    rewrite app_assoc. apply after_close_facts.
    + eapply surfaced_mono; [|eapply fixup_trace_surfaced; exact Hfix].
      set_solver.
    + intros ev e Hin Hf Hno. apply elem_of_app in Hin as [Hin|Hin].
      * pose proof (streamed_returns_succeeded _ _ Hst) as Hok.
        rewrite Forall_forall in Hok. rewrite (Hok _ Hin) in Hf.
        discriminate.
      * pose proof (fixup_trace_chown _ _ _ _ _ _ Hfix) as Hch.
        rewrite Forall_forall in Hch. rewrite (Hch _ Hin) in Hno.
        discriminate.
    + apply Forall_app. split; [eapply streamed_targets; exact Hst|].
      eapply fixup_trace_targets; exact Hfix.
    + intros Hp. destruct (fixup_trace_off _ _ _ _ _ _ Hp Hfix) as [-> ->].
      split; [|discriminate]. rewrite app_nil_r.
      eapply streamed_no_chown; exact Hst.
Qed.

(* ===================================================================== *)
(** ** The ownership step and the unsupported type, over any provider *)
(* ===================================================================== *)

Section AnyWorld.
Context {W : Type} `{Os W}.
Implicit Types (w : W) (self : OutputBackendFile) (st : StatInfo).

Lemma bind_sys_any {B} (c : call) (k : Z -> M W B) w :
  (sys c ≫= k) w =
    match perform c w with
    | (inl e, w') => Some (Raises (Native e), w')
    | (inr v, w') => k v w'
    end.
Proof.
  unfold mbind, M_bind, Py.bind, sys.
  destruct (perform c w) as [[e|v] w']; reflexivity.
Qed.

Lemma fixup_body full_path st fd :
  (if fd =? -1
   then sys (lchown full_path (uid st) (gid st));; Py.ret ()
   else sys (fchown fd (uid st) (gid st));; Py.ret ())
  = (sys (chown_call full_path st fd);; Py.ret () : M W ()).
Proof. unfold chown_call. destruct (fd =? -1); reflexivity. Qed.

Lemma fixup_disabled self full_path st fd w :
  preserve_owners self = false →
  _fixup_owners self full_path st fd w = Some (Returns tt, w).
Proof. intros Hp. unfold _fixup_owners. rewrite Hp. reflexivity. Qed.

Lemma fixup_enabled self full_path st fd w :
  preserve_owners self = true →
  _fixup_owners self full_path st fd w =
    let '(res, w') := perform (chown_call full_path st fd) w in
    Some (fixup_outcome res, w').
Proof.
  intros Hp. unfold _fixup_owners. rewrite Hp. cbn [negb].
  unfold try_except_OSError. rewrite fixup_body, bind_sys_any.
  destruct (perform (chown_call full_path st fd) w)
    as [[[errno text|cls text]|v] w']; reflexivity.
Qed.

Lemma write_other_unsupported self path st w :
  Stat.S_IFMT (mode st)
    ∉ [Stat.S_IFCHR; Stat.S_IFBLK; Stat.S_IFIFO; Stat.S_IFSOCK] →
  write_other self path st w = Some (Raises unsupported_type, w).
Proof.
  intros Hun. unfold write_other.
  rewrite bool_decide_eq_false_2.
  2:{ intros Hin. apply Hun. rewrite !elem_of_cons in Hin.
      rewrite !elem_of_cons. tauto. }
  assert (Hs : Stat.S_ISSOCK (mode st) = false).
  { apply Z.eqb_neq. intros Heq. apply Hun. rewrite Heq.
    rewrite !elem_of_cons. tauto. }
  rewrite Hs. reflexivity.
Qed.
End AnyWorld.

(* ===================================================================== *)
(** ** Claims settled over every provider *)
(* ===================================================================== *)

(** C3. When the type bits of [st.mode] are none of character device,
    block device, FIFO and socket, [write_other] raises the exception for
    an unsupported type and leaves the world as it found it, whatever the
    provider: in a recording world not one call is recorded, so nothing is
    created and no ownership change is attempted. *)
Theorem write_other_rejects_other_types :
  ∀ (W : Type) (os : Os W) (self : OutputBackendFile) (path : string)
    (st : StatInfo) (t : Traced W),
    Stat.S_IFMT (mode st)
      ∉ [Stat.S_IFCHR; Stat.S_IFBLK; Stat.S_IFIFO; Stat.S_IFSOCK] →
    write_other self path st t
      = Some (Raises (DirDiffOutputException "Unsupported file type" None), t)
    ∧ write_other self path st (world t)
      = Some (Raises (DirDiffOutputException "Unsupported file type" None),
              world t).
Proof.
  intros W os self path st t Hun. split.
  - exact (write_other_unsupported self path st t Hun).
  - exact (write_other_unsupported self path st (world t) Hun).
Qed.

(** C4. [_fixup_owners] turns an [OSError] of its ownership call into
    [DirDiffOutputException] with the [OSError] as its cause.  In every
    method, the exception of a run is otherwise the very exception some
    call raised ([surfaced]), and whenever a call other than the ownership
    call raises, the run ends with a native exception
    ([native_surfaces]). *)
Theorem only_fixup_owners_wraps :
  (∀ (W : Type) (os : Os W) self full_path st fd (w w' : W) errno text,
      preserve_owners self = true →
      perform (chown_call full_path st fd) w = (inl (OSError errno text), w') →
      _fixup_owners self full_path st fd w
        = Some (Raises (DirDiffOutputException
                          ("failed to chown object: " +:+ text)
                          (Some (OSError errno text))), w'))
  ∧ (∀ (W : Type) (os : Os W) self path st (t : Traced W),
       ∃ evs r t',
         write_dir self path st t = Some (r, t')
         ∧ events t' = events t ++ evs
         ∧ surfaced evs r ∧ native_surfaces evs r)
  ∧ (∀ (W : Type) (os : Os W) fuel self path st (rd : Reader W)
       (t : Traced W) r t',
       write_file fuel self path st (traced_reader rd) t = Some (r, t') →
       ∃ evs,
         events t' = events t ++ evs
         ∧ surfaced evs r ∧ native_surfaces evs r)
  ∧ (∀ (W : Type) (os : Os W) self path st linkname (t : Traced W),
       ∃ evs r t',
         write_symlink self path st linkname t = Some (r, t')
         ∧ events t' = events t ++ evs
         ∧ surfaced evs r ∧ native_surfaces evs r)
  ∧ (∀ (W : Type) (os : Os W) self path st (t : Traced W),
       ∃ evs r t',
         write_other self path st t = Some (r, t')
         ∧ events t' = events t ++ evs
         ∧ surfaced evs r ∧ native_surfaces evs r).
Proof.
  split; [|split; [|split; [|split]]].
  - intros W os self full_path st fd w w' errno text Hp Hcall.
    rewrite fixup_enabled by exact Hp. rewrite Hcall. reflexivity.
  - intros W os self path st t.
    destruct (write_dir_run self path st t) as (evs & r & t' & Hrun & Hev & Htr).
    apply dir_trace_facts in Htr as (Hs & Hn & _).
    exists evs, r, t'. auto.
  - intros W os fuel self path st rd t r t' Hrun.
    apply write_file_run in Hrun as (evs & Hev & Htr).
    apply file_trace_facts in Htr as (Hs & Hn & _).
    exists evs. auto.
  - intros W os self path st linkname t.
    destruct (write_symlink_run self path st linkname t)
      as (evs & r & t' & Hrun & Hev & Htr).
    apply symlink_trace_facts in Htr as (Hs & Hn & _).
    exists evs, r, t'. auto.
  - intros W os self path st t.
    destruct (write_other_run self path st t)
      as (evs & r & t' & Hrun & Hev & Htr).
    apply other_trace_facts in Htr as (Hs & Hn & _).
    exists evs, r, t'. auto.
Qed.

(** An unprivileged process may not give the directory away: the
    [OSError] of [lchown] comes back wrapped, with the error inside. *)
Lemma only_fixup_owners_wraps_witness :
  preserve_owners Sample.preserving = true
  ∧ perform (chown_call "/out" Sample.st_reg (-1)) Sample.tree
    = (inl (EPERM "/out"), Sample.tree)
  ∧ _fixup_owners Sample.preserving "/out" Sample.st_reg (-1) Sample.tree
    = Some (Raises (DirDiffOutputException
                      "failed to chown object: [Errno 1] Operation not permitted: '/out'"
                      (Some (EPERM "/out"))), Sample.tree).
Proof.
  split; [reflexivity|]. split; [reflexivity|].
  apply (proj1 only_fixup_owners_wraps FS fs_os Sample.preserving "/out"
           Sample.st_reg (-1) Sample.tree Sample.tree 1
           "[Errno 1] Operation not permitted: '/out'");
    reflexivity.
Defined.

Lemma write_other_rejects_other_types_witness :
  (Stat.S_IFMT (mode Sample.st_dir)
     ∉ [Stat.S_IFCHR; Stat.S_IFBLK; Stat.S_IFIFO; Stat.S_IFSOCK])
  ∧ write_other Sample.plain "d" Sample.st_dir (mkTraced [] Sample.tree)
    = Some (Raises (DirDiffOutputException "Unsupported file type" None),
            mkTraced [] Sample.tree).
Proof.
  assert (Hun : Stat.S_IFMT (mode Sample.st_dir)
                  ∉ [Stat.S_IFCHR; Stat.S_IFBLK; Stat.S_IFIFO; Stat.S_IFSOCK]).
  { rewrite !elem_of_cons. intros [H|[H|[H|[H|H]]]];
      [discriminate H .. | inversion H]. }
  split; [exact Hun|].
  exact (proj1 (write_other_rejects_other_types FS fs_os Sample.plain "d"
                  Sample.st_dir (mkTraced [] Sample.tree) Hun)).
Defined.

Lemma sample_write_run :
  write_file 2 Sample.plain "my-file" Sample.st_reg
    (traced_reader (reader_of BytesIO_read)) Sample.before_write
  = Some (Returns tt, Sample.after_write).
Proof. vm_compute. reflexivity. Qed.


(** C10, as amended.  The exception [_fixup_owners] raises for a failed
    ownership call and the exception [write_other] raises for an
    unsupported type are objects of one class, [DirDiffOutputException]:
    whatever an [except] clause decides from the class, it decides the same
    for both.  Their messages differ, and so do their causes: the first
    carries the [OSError], the second carries none. *)
Theorem both_error_kinds_share_one_class :
  ∀ (W : Type) (os : Os W) self full_path st fd (w w' : W) errno text
    self' path' st' (w2 : W),
    preserve_owners self = true →
    perform (chown_call full_path st fd) w = (inl (OSError errno text), w') →
    Stat.S_IFMT (mode st')
      ∉ [Stat.S_IFCHR; Stat.S_IFBLK; Stat.S_IFIFO; Stat.S_IFSOCK] →
    ∃ e1 e2,
      _fixup_owners self full_path st fd w = Some (Raises e1, w')
      ∧ write_other self' path' st' w2 = Some (Raises e2, w2)
      ∧ class_of e1 = CDirDiffOutputException
      ∧ class_of e2 = CDirDiffOutputException
      ∧ (∀ handler : exn_class → bool,
           handler (class_of e1) = handler (class_of e2))
      ∧ message_of e1 ≠ message_of e2
      ∧ cause_of e1 = Some (OSError errno text)
      ∧ cause_of e2 = None.
Proof.
  intros W os self full_path st fd w w' errno text self' path' st' w2
    Hp Hcall Hun.
  exists (ownership_failure (OSError errno text)), unsupported_type.
  split; [rewrite fixup_enabled by exact Hp; rewrite Hcall; reflexivity|].
  split; [apply write_other_unsupported; exact Hun|].
  split; [reflexivity|]. split; [reflexivity|]. split; [reflexivity|].
  split; [discriminate|]. split; reflexivity.
Qed.

(** C10, as it was stated: the message is not all that tells the two
    exceptions apart.  An unprivileged [lchown] fails and is wrapped with
    its [OSError] as the cause; the exception for a directory handed to
    [write_other] has no cause. *)
Lemma error_kinds_differ_beyond_message :
  ¬ (∀ e1 e2,
       _fixup_owners Sample.preserving "/out" Sample.st_reg (-1) Sample.tree
       = Some (Raises e1, Sample.tree) →
       write_other Sample.plain "d" Sample.st_dir Sample.tree
       = Some (Raises e2, Sample.tree) →
       only_message_differs e1 e2).
Proof.
  intros Hall.
  destruct (Hall _ _ eq_refl eq_refl) as (_ & Hcause & _).
  discriminate Hcause.
Qed.

Lemma both_error_kinds_share_one_class_witness :
  preserve_owners Sample.preserving = true
  ∧ perform (chown_call "/out" Sample.st_reg (-1)) Sample.tree
    = (inl (EPERM "/out"), Sample.tree)
  ∧ (Stat.S_IFMT (mode Sample.st_dir)
       ∉ [Stat.S_IFCHR; Stat.S_IFBLK; Stat.S_IFIFO; Stat.S_IFSOCK])
  ∧ (∃ e1 e2,
       _fixup_owners Sample.preserving "/out" Sample.st_reg (-1) Sample.tree
       = Some (Raises e1, Sample.tree)
       ∧ write_other Sample.plain "d" Sample.st_dir Sample.tree
         = Some (Raises e2, Sample.tree)
       ∧ class_of e1 = class_of e2).
Proof.
  assert (Hun : Stat.S_IFMT (mode Sample.st_dir)
                  ∉ [Stat.S_IFCHR; Stat.S_IFBLK; Stat.S_IFIFO; Stat.S_IFSOCK]).
  { rewrite !elem_of_cons. intros [H|[H|[H|[H|H]]]];
      [discriminate H .. | inversion H]. }
  split; [reflexivity|]. split; [reflexivity|]. split; [exact Hun|].
  destruct (both_error_kinds_share_one_class FS fs_os Sample.preserving
              "/out" Sample.st_reg (-1) Sample.tree Sample.tree 1
              "[Errno 1] Operation not permitted: '/out'"
              Sample.plain "d" Sample.st_dir Sample.tree
              eq_refl eq_refl Hun)
    as (e1 & e2 & H1 & H2 & Hc1 & Hc2 & _).
  exists e1, e2. split; [exact H1|]. split; [exact H2|]. congruence.
Defined.

(** C5. Every method works on [normpath(join(base_path, path))].  The
    call that creates the object is made on that path, whatever the world
    holds there: [os.mkdir], [os.open], [os.symlink] and [os.mknod] are
    the first call of their method, and [bind] follows the call that
    makes the socket; every later call that names a path names the same
    one.  The path is a function of the two strings alone.  Nothing keeps
    it below [base_path]: [.], [..] and repeated separators collapse, and
    from [/srv/out] the path [../../etc/passwd] resolves to [/etc/passwd],
    where [write_file] creates the file. *)
Theorem methods_target_full_path :
  (∀ (W : Type) (os : Os W) self path st (t : Traced W),
      ∃ res evs r t',
        write_dir self path st t = Some (r, t')
        ∧ events t'
          = events t
              ++ Called (mkdir (PosixPath.normpath
                                  (PosixPath.join (base_path self) path))
                           (Stat.S_IMODE (mode st))) res
                 :: evs
        ∧ targets_only
            (PosixPath.normpath (PosixPath.join (base_path self) path)) evs)
  ∧ (∀ (W : Type) (os : Os W) fuel self path st (rd : Reader W)
       (t : Traced W) r t',
       write_file fuel self path st (traced_reader rd) t = Some (r, t') →
       ∃ res evs,
         events t'
         = events t
             ++ Called (open (PosixPath.normpath
                                (PosixPath.join (base_path self) path))
                          (Z.lor O_WRONLY O_CREAT)
                          (Stat.S_IMODE (mode st))) res
                :: evs
         ∧ targets_only
             (PosixPath.normpath (PosixPath.join (base_path self) path)) evs)
  ∧ (∀ (W : Type) (os : Os W) self path st linkname (t : Traced W),
       ∃ res evs r t',
         write_symlink self path st linkname t = Some (r, t')
         ∧ events t'
           = events t
               ++ Called (symlink linkname
                            (PosixPath.normpath
                               (PosixPath.join (base_path self) path))) res
                  :: evs
         ∧ targets_only
             (PosixPath.normpath (PosixPath.join (base_path self) path)) evs)
  ∧ (∀ (W : Type) (os : Os W) self path st (t : Traced W),
       Stat.S_IFMT (mode st) ∈ [Stat.S_IFCHR; Stat.S_IFBLK; Stat.S_IFIFO] →
       ∃ res evs r t',
         write_other self path st t = Some (r, t')
         ∧ events t'
           = events t
               ++ Called (mknod (PosixPath.normpath
                                   (PosixPath.join (base_path self) path))
                            (mode st) (rdev st)) res
                  :: evs
         ∧ targets_only
             (PosixPath.normpath (PosixPath.join (base_path self) path)) evs)
  ∧ (∀ (W : Type) (os : Os W) self path st (t : Traced W),
       Stat.S_IFMT (mode st) = Stat.S_IFSOCK →
       ∃ res evs r t',
         write_other self path st t = Some (r, t')
         ∧ events t'
           = events t ++ Called (socket AF_UNIX SOCK_DGRAM) res :: evs
         ∧ targets_only
             (PosixPath.normpath (PosixPath.join (base_path self) path)) evs
         ∧ (∀ sock, res = inr sock →
            ∃ res' evs',
              evs = Called (bind sock
                              (PosixPath.normpath
                                 (PosixPath.join (base_path self) path)))
                      res'
                    :: evs'))
  ∧ (_full_path Sample.rooted "a/.//b/../c" = "/srv/out/a/c"
     ∧ _full_path Sample.rooted "../../etc/passwd" = "/etc/passwd"
     ∧ within (base_path Sample.rooted) "/etc/passwd" = false
     ∧ ∃ w',
         write_file 2 Sample.rooted "../../etc/passwd" Sample.st_reg
           (reader_of BytesIO_read)
           (Sample.host_tree, new_BytesIO Sample.hello)
         = Some (Returns tt, w')
         ∧ read_back (fst w') "/etc/passwd" = Some Sample.hello).
Proof.
  split; [|split; [|split; [|split; [|split]]]].
  - intros W os self path st t.
    destruct (write_dir_run self path st t) as (evs & r & t' & Hrun & Hev & Htr).
    pose proof (dir_trace_facts _ _ _ _ _ Htr) as (_ & _ & Ht & _).
    destruct Htr as [res evs r _].
    apply Forall_cons in Ht as [_ Ht].
    exists res, evs, r, t'. auto.
  - intros W os fuel self path st rd t r t' Hrun.
    apply write_file_run in Hrun as (evs & Hev & Htr).
    pose proof (file_trace_facts _ _ _ _ _ Htr) as (_ & _ & Ht & _).
    destruct Htr as [e|fd e|fd fout loop e cl Hst|fd fout loop own r cl Hst Hfix];
      apply Forall_cons in Ht as [_ Ht]; eauto.
  - intros W os self path st linkname t.
    destruct (write_symlink_run self path st linkname t)
      as (evs & r & t' & Hrun & Hev & Htr).
    pose proof (symlink_trace_facts _ _ _ _ _ _ Htr) as (_ & _ & Ht & _).
    destruct Htr as [res evs r _].
    apply Forall_cons in Ht as [_ Ht].
    exists res, evs, r, t'. auto.
  - intros W os self path st t Hfmt.
    destruct (write_other_run self path st t)
      as (evs & r & t' & Hrun & Hev & Htr).
    pose proof (other_trace_facts _ _ _ _ _ Htr) as (_ & _ & Ht & _).
    assert (Hns : Stat.S_IFMT (mode st) ≠ Stat.S_IFSOCK).
    { intros Hs. rewrite Hs, !elem_of_cons in Hfmt.
      destruct Hfmt as [H|[H|[H|H]]]; [discriminate H .. | inversion H]. }
    destruct Htr as [res evs r _ _|e Hs|sock e Hs|sock v e Hs
                    |sock v v' res evs r Hs _|Hun];
      try contradiction.
    + apply Forall_cons in Ht as [_ Ht]. exists res, evs, r, t'. auto.
    + exfalso. apply Hun. rewrite !elem_of_cons in Hfmt.
      rewrite !elem_of_cons. tauto.
  - intros W os self path st t Hfmt.
    destruct (write_other_run self path st t)
      as (evs & r & t' & Hrun & Hev & Htr).
    pose proof (other_trace_facts _ _ _ _ _ Htr) as (_ & _ & Ht & _).
    destruct Htr as [res evs r Hdev _|e Hs|sock e Hs|sock v e Hs
                    |sock v v' res evs r Hs _|Hun].
    + exfalso. rewrite Hfmt, !elem_of_cons in Hdev.
      destruct Hdev as [H|[H|[H|H]]]; [discriminate H .. | inversion H].
    + apply Forall_cons in Ht as [_ Ht].
      eexists _, _, _, t'. split; [exact Hrun|]. split; [exact Hev|].
      split; [exact Ht|]. intros sock Hsock. discriminate Hsock.
    + apply Forall_cons in Ht as [_ Ht].
      eexists _, _, _, t'. split; [exact Hrun|]. split; [exact Hev|].
      split; [exact Ht|]. intros sock' Hsock. inversion Hsock; subst.
      eauto.
    + apply Forall_cons in Ht as [_ Ht].
      eexists _, _, _, t'. split; [exact Hrun|]. split; [exact Hev|].
      split; [exact Ht|]. intros sock' Hsock. inversion Hsock; subst.
      eauto.
    + apply Forall_cons in Ht as [_ Ht].
      eexists _, _, _, t'. split; [exact Hrun|]. split; [exact Hev|].
      split; [exact Ht|]. intros sock' Hsock. inversion Hsock; subst.
      eauto.
    + exfalso. apply Hun. rewrite Hfmt, !elem_of_cons. tauto.
  - split; [reflexivity|]. split; [reflexivity|]. split; [reflexivity|].
    eexists. split; [vm_compute; reflexivity|]. vm_compute. reflexivity.
Qed.

(** [test_file_write_reg]: the first call is [os.open] on
    [/out/my-file]. *)
Lemma methods_target_full_path_witness :
  write_file 2 Sample.plain "my-file" Sample.st_reg
    (traced_reader (reader_of BytesIO_read)) Sample.before_write
  = Some (Returns tt, Sample.after_write)
  ∧ (∃ res evs,
       events Sample.after_write
       = events Sample.before_write
           ++ Called (open "/out/my-file" (Z.lor O_WRONLY O_CREAT)
                        (Stat.S_IMODE (mode Sample.st_reg))) res
              :: evs
       ∧ targets_only "/out/my-file" evs).
Proof.
  split; [exact sample_write_run|].
  exact (proj1 (proj2 methods_target_full_path)
           (FS * BytesIO)%type _ 2%nat Sample.plain "my-file" Sample.st_reg
           (reader_of BytesIO_read) Sample.before_write (Returns tt)
           Sample.after_write sample_write_run).
Defined.

(* ===================================================================== *)
(** ** Runs on the model tree *)
(* ===================================================================== *)

Lemma check_parent_None fs p :
  check_parent fs p = None → ∃ d, parent_dir fs p = inr d.
Proof.
  unfold check_parent. destruct (parent_dir fs p) as [errno|d];
    [discriminate | eauto].
Qed.

Lemma parent_dir_found fs p d :
  parent_dir fs p = inr d →
  files fs !! parent_of p = Some d ∧ Stat.S_ISDIR (st_mode d) = true.
Proof.
  unfold parent_dir. destruct (files fs !! parent_of p) as [d'|];
    [|discriminate].
  destruct (Stat.S_ISDIR (st_mode d')) eqn:Hd; [|discriminate].
  intros Heq. inversion Heq; subst. auto.
Qed.







(* ===================================================================== *)
(** ** Bit arithmetic of modes and device numbers *)
(* ===================================================================== *)

Lemma testbit_mask lo len n :
  0 <= lo → 0 <= len →
  Z.testbit (Z.shiftl (Z.ones len) lo) n = (lo <=? n) && (n <? lo + len).
Proof.
  intros Hlo Hlen.
  destruct (Z.lt_ge_cases n 0) as [Hneg|Hn].
  { rewrite Z.testbit_neg_r by assumption.
    destruct (Z.leb_spec lo n); [lia | reflexivity]. }
  rewrite Z.shiftl_spec by assumption.
  destruct (Z.leb_spec lo n) as [Hle|Hgt].
  - rewrite Z.testbit_ones_nonneg by lia.
    destruct (Z.ltb_spec (n - lo) len), (Z.ltb_spec n (lo + len));
      simpl; lia.
  - rewrite Z.testbit_neg_r by lia. reflexivity.
Qed.

Lemma testbit_shiftl a k n :
  0 <= k → Z.testbit (Z.shiftl a k) n = Z.testbit a (n - k).
Proof.
  intros Hk. destruct (Z.lt_ge_cases n 0) as [Hneg|Hn].
  - rewrite !Z.testbit_neg_r by lia. reflexivity.
  - apply Z.shiftl_spec. assumption.
Qed.

Lemma testbit_shiftr a k n :
  Z.testbit (Z.shiftr a k) n = (0 <=? n) && Z.testbit a (n + k).
Proof.
  destruct (Z.leb_spec 0 n) as [Hn|Hneg].
  - rewrite Z.shiftr_spec by assumption. reflexivity.
  - rewrite Z.testbit_neg_r by assumption. reflexivity.
Qed.

Lemma testbit_above x n : 0 <= x < 2 ^ 32 → 32 <= n → Z.testbit x n = false.
Proof.
  intros Hx Hn. destruct (Z.eq_dec x 0) as [->|Hne].
  - apply Z.testbit_0_l.
  - apply Z.bits_above_log2; [lia|].
    assert (Z.log2 x < 32) by (apply Z.log2_lt_pow2; lia). lia.
Qed.

(** Each mask of the sources as a run of ones at an offset. *)
Ltac name_masks :=
  change 0x00000fff with (Z.shiftl (Z.ones 12) 0);
  change 0xfffff000 with (Z.shiftl (Z.ones 20) 12);
  change 0x000000ff with (Z.shiftl (Z.ones 8) 0);
  change 0xffffff00 with (Z.shiftl (Z.ones 24) 8);
  change 0x00000000000fff00 with (Z.shiftl (Z.ones 12) 8);
  change 0xfffff00000000000 with (Z.shiftl (Z.ones 20) 44);
  change 0x00000ffffff00000 with (Z.shiftl (Z.ones 24) 20);
  change 0xF000 with (Z.shiftl (Z.ones 4) 12).

Ltac bit_step :=
  first [ rewrite testbit_mask by lia
        | rewrite Z.lor_spec
        | rewrite Z.land_spec
        | rewrite testbit_shiftr
        | rewrite testbit_shiftl by lia ].

Ltac split_ranges :=
  repeat match goal with
    | |- context [?a <=? ?b] => destruct (Z.leb_spec a b); try lia
    | |- context [?a <? ?b] => destruct (Z.ltb_spec a b); try lia
    end.

Ltac bool_tidy :=
  repeat (progress (cbn [andb orb];
                    rewrite ?andb_false_r, ?andb_true_r, ?orb_false_r)).

Ltac bitwise :=
  name_masks; apply Z.bits_inj'; intros n Hn;
  repeat bit_step; split_ranges; bool_tidy;
  try reflexivity;
  try (symmetry; apply testbit_above; lia);
  try (f_equal; lia);
  try (repeat match goal with
         | |- context [Z.testbit ?x ?i] => destruct (Z.testbit x i)
         end; reflexivity).



Lemma fmt_of_type_and_masked_perm a perm c :
  Stat.S_IFMT (Z.lor (Stat.S_IFMT a) (Z.land (Stat.S_IMODE perm) c))
  = Stat.S_IFMT a.
Proof. unfold Stat.S_IFMT, Stat.S_IMODE. bitwise. Qed.




(* ===================================================================== *)
(** *** Bits that are taken away *)

Lemma land_clear_bits x b k :
  Z.land b k = 0 → Z.land (clear_bits x b) k = Z.land x k.
Proof.
  intros Hd. unfold clear_bits. apply Z.bits_inj'. intros n Hn.
  rewrite !Z.land_spec, Z.lnot_spec by exact Hn.
  assert (Hbit : Z.testbit (Z.land b k) n = false)
    by (rewrite Hd; apply Z.testbit_0_l).
  rewrite Z.land_spec in Hbit.
  destruct (Z.testbit x n), (Z.testbit b n), (Z.testbit k n);
    try reflexivity; discriminate.
Qed.

Lemma land_lor_disjoint x b k :
  Z.land b k = 0 → Z.land (Z.lor x b) k = Z.land x k.
Proof.
  intros Hd. rewrite Z.land_lor_distr_l, Hd. apply Z.lor_0_r.
Qed.

Lemma clear_bits_absent x b : Z.land x b = 0 → clear_bits x b = x.
Proof.
  intros Hd. unfold clear_bits. apply Z.bits_inj'. intros n Hn.
  rewrite Z.land_spec, Z.lnot_spec by exact Hn.
  assert (Hbit : Z.testbit (Z.land x b) n = false)
    by (rewrite Hd; apply Z.testbit_0_l).
  rewrite Z.land_spec in Hbit.
  destruct (Z.testbit x n), (Z.testbit b n); try reflexivity; discriminate.
Qed.

Lemma land_part x k b : Z.land x k = 0 → Z.land x (Z.land k b) = 0.
Proof. intros Hd. rewrite Z.land_assoc, Hd. reflexivity. Qed.


(** The type of an object survives what takes set-ID bits away, and so
    do the permission bits and the sticky bit. *)
Lemma fmt_drop_setid m : Stat.S_IFMT (drop_setid m) = Stat.S_IFMT m.
Proof.
  unfold Stat.S_IFMT, drop_setid.
  rewrite land_clear_bits by reflexivity.
  destruct (has_flag m Stat.S_IXGRP); [|reflexivity].
  apply land_clear_bits. reflexivity.
Qed.

Lemma low_drop_setid m : Z.land (drop_setid m) 0x3FF = Z.land m 0x3FF.
Proof.
  unfold drop_setid. rewrite land_clear_bits by reflexivity.
  destruct (has_flag m Stat.S_IXGRP); [|reflexivity].
  apply land_clear_bits. reflexivity.
Qed.

Lemma drop_setid_plain m : Z.land m 0xC00 = 0 → drop_setid m = m.
Proof.
  intros Hd. unfold drop_setid.
  assert (Hg : Z.land m Stat.S_ISGID = 0)
    by exact (land_part m 0xC00 Stat.S_ISGID Hd).
  assert (Hu : Z.land m Stat.S_ISUID = 0)
    by exact (land_part m 0xC00 Stat.S_ISUID Hd).
  rewrite (clear_bits_absent m Stat.S_ISGID Hg).
  destruct (has_flag m Stat.S_IXGRP); apply clear_bits_absent; exact Hu.
Qed.


(** The type of a new object is the one asked for. *)
Lemma fmt_new_mode fs d m : Stat.S_IFMT (new_mode fs d m) = Stat.S_IFMT m.
Proof.
  unfold new_mode. destruct (has_flag (st_mode d) Stat.S_ISGID);
    [|reflexivity].
  destruct (Stat.S_ISDIR m).
  - unfold Stat.S_IFMT. apply land_lor_disjoint. reflexivity.
  - destruct (_ && _); [|reflexivity].
    unfold Stat.S_IFMT. apply land_clear_bits. reflexivity.
Qed.


Lemma fmt_of_type_and_mask ty perm um :
  Stat.S_IFMT (Z.lor (Stat.S_IFMT ty) (mask (Stat.S_IMODE perm) um))
  = Stat.S_IFMT ty.
Proof.
  exact (fmt_of_type_and_masked_perm ty perm (Z.lnot (Z.land um 0x1FF))).
Qed.

(** ** Special files on the model tree *)
(* ===================================================================== *)



Lemma resolve_not_link fuel (m : gmap string inode) p i :
  m !! p = Some i → Stat.S_ISLNK (st_mode i) = false →
  resolve fuel m p = Some p.
Proof. intros Hi Hl. destruct fuel; simpl; rewrite Hi, Hl; reflexivity. Qed.





(** At [p], the ownership step changes neither type, permission bits,
    device number, content nor link target; it changes nothing of the
    mode of a directory, nor of a mode without set-ID bits. *)
Lemma chowned_keeps i u g :
  Stat.S_IFMT (st_mode (chowned i u g)) = Stat.S_IFMT (st_mode i)
  ∧ Z.land (st_mode (chowned i u g)) 0x3FF = Z.land (st_mode i) 0x3FF
  ∧ (Z.land (st_mode i) 0xC00 = 0 → st_mode (chowned i u g) = st_mode i)
  ∧ (Stat.S_ISDIR (st_mode i) = true → st_mode (chowned i u g) = st_mode i).
Proof.
  unfold chowned. cbn [st_mode].
  destruct (Stat.S_ISDIR (st_mode i)); [auto|].
  split; [apply fmt_drop_setid|]. split; [apply low_drop_setid|].
  split; [apply drop_setid_plain | discriminate].
Qed.











Lemma not_socket_if_node fmt :
  fmt ∈ [Stat.S_IFCHR; Stat.S_IFBLK; Stat.S_IFIFO] → fmt ≠ Stat.S_IFSOCK.
Proof.
  rewrite !elem_of_cons. intros [->|[->|[->|H]]]; [discriminate .. |].
  inversion H.
Qed.



(* ===================================================================== *)
(** ** The copy loop on the model tree *)
(* ===================================================================== *)

Lemma splice_append (w old c : bytes) :
  splice (w ++ skipn (length w) old) (length w) c
  = (w ++ c) ++ skipn (length (w ++ c)) old.
Proof.
  unfold splice.
  rewrite take_app_length, drop_app_add, drop_drop.
  replace (length w - length (w ++ drop (length w) old))%nat with 0%nat
    by (rewrite length_app; lia).
  cbn [repeat]. rewrite length_app, <- app_assoc. reflexivity.
Qed.

Lemma isreg_drop_setid m : Stat.S_ISREG (drop_setid m) = Stat.S_ISREG m.
Proof. unfold Stat.S_ISREG. rewrite fmt_drop_setid. reflexivity. Qed.

Lemma do_write_appends fs fd p (w old c : bytes) :
  written_so_far fs fd p w old →
  ∃ fs', do_write fs fd c = (inr (Z.of_nat (length c)), fs')
         ∧ written_so_far fs' fd p (w ++ c) old.
Proof.
  intros (i & Hh & Hi & Hc & Hm). unfold do_write. rewrite Hh, Hi.
  eexists. split; [reflexivity|].
  eexists. cbn [handles files]. rewrite !lookup_insert_eq.
  split; [rewrite length_app; reflexivity|]. split; [reflexivity|].
  cbn [content st_mode]. split; [rewrite Hc; apply splice_append|].
  destruct (_ || _); [exact Hm|]. rewrite isreg_drop_setid. exact Hm.
Qed.

Lemma perform_pair {R : Type} (c : call) (fs : FS) (r : R) :
  perform c (fs, r) = let '(res, fs') := perform c fs in (res, (fs', r)).
Proof. reflexivity. Qed.

Section CopyOnModel.
Context {R : Type} (read : Z -> R -> (native_exn + bytes) * R).

Lemma copy_loop_model fd p old (r r' : R) cs :
  yields read (2 ^ 16) r cs r' →
  ∀ fuel fs w,
    (length cs < fuel)%nat →
    written_so_far fs fd p w old →
    ∃ fs',
      copy_loop fuel (reader_of read) fd (fs, r) = Some (Returns tt, (fs', r'))
      ∧ written_so_far fs' fd p (w ++ concat cs) old.
Proof.
  induction 1 as [r r' Hread|r chunk r1 cs r' Hread Hne Hy IH];
    intros fuel fs w Hfuel Hinv;
    (destruct fuel as [|fuel]; [simpl in Hfuel; lia|]);
    cbn [copy_loop]; unfold mbind, M_bind, Py.bind, read_from, reader_of;
    cbn [fst snd]; rewrite Hread.
  - exists fs. rewrite bool_decide_eq_true_2 by reflexivity.
    split; [reflexivity|]. cbn [concat]. rewrite app_nil_r. exact Hinv.
  - rewrite bool_decide_eq_false_2 by exact Hne.
    destruct (do_write_appends fs fd p w old chunk Hinv)
      as (fs1 & Hw & Hinv1).
    unfold sys. rewrite perform_pair.
    change (perform (write fd chunk) fs) with (do_write fs fd chunk).
    rewrite Hw.
    destruct (IH fuel fs1 (w ++ chunk)) as (fs' & Hloop & Hinv');
      [simpl in Hfuel; lia | exact Hinv1 |].
    exists fs'. split; [exact Hloop|].
    cbn [concat]. rewrite app_assoc. exact Hinv'.
Qed.
End CopyOnModel.

Lemma regular_not_other m :
  Stat.S_ISREG m = true → Stat.S_ISLNK m = false ∧ Stat.S_ISDIR m = false.
Proof.
  unfold Stat.S_ISREG, Stat.S_ISLNK, Stat.S_ISDIR. intros H.
  apply Z.eqb_eq in H. rewrite H. split; reflexivity.
Qed.

Lemma new_file_is_regular fs d perm um :
  Stat.S_ISREG
    (new_mode fs d (Z.lor Stat.S_IFREG (mask (Stat.S_IMODE perm) um)))
  = true.
Proof.
  apply Z.eqb_eq. rewrite fmt_new_mode.
  exact (fmt_of_type_and_mask Stat.S_IFREG perm um).
Qed.

(** [os.open] with [O_WRONLY | O_CREAT]: the file is there afterwards,
    open at offset 0, with what it held before. *)
Lemma open_model fs p perm old :
  writable_at fs p old →
  ∃ fd fs1,
    do_open fs p (Z.lor O_WRONLY O_CREAT) perm = (inr fd, fs1)
    ∧ written_so_far fs1 fd p [] old.
Proof.
  unfold do_open.
  change (has_flag (Z.lor O_WRONLY O_CREAT) O_CREAT) with true.
  change (has_flag (Z.lor O_WRONLY O_CREAT) O_EXCL) with false.
  change (has_flag (Z.lor O_WRONLY O_CREAT) O_TRUNC) with false.
  intros [(Hfree & Hpar & ->)|(i0 & Hi0 & Hreg & Hw & ->)].
  - rewrite Hfree. apply check_parent_None in Hpar as [d Hd].
    unfold create. rewrite Hfree, Hd.
    eexists _, _. split; [reflexivity|].
    eexists. cbn [alloc_handle snd handles files set_files].
    rewrite !lookup_insert_eq. cbn [length].
    split; [reflexivity|]. split; [reflexivity|].
    split; [reflexivity|]. apply new_file_is_regular.
  - rewrite Hi0. cbn [andb].
    destruct (regular_not_other _ Hreg) as [Hl Hd].
    rewrite (resolve_not_link 40 (files fs) p i0 Hi0 Hl), Hi0, Hd, Hw, Hreg.
    cbn [negb].
    eexists _, _. split; [reflexivity|].
    exists i0. cbn [alloc_handle snd handles files set_files].
    rewrite !lookup_insert_eq. cbn [length drop app].
    split; [reflexivity|]. split; [reflexivity|].
    split; [reflexivity | exact Hreg].
Qed.

Lemma chown_at_keeps n fs fd p w old u g :
  written_so_far fs fd p w old →
  ∃ res fs', chown_at n fs p u g = (res, fs')
             ∧ written_so_far fs' fd p w old.
Proof.
  intros (i & Hh & Hi & Hc & Hm). unfold chown_at. rewrite Hi.
  destruct (may_chown fs i u g).
  - eexists _, _. split; [reflexivity|]. eexists.
    cbn [handles files set_files]. rewrite lookup_insert_eq.
    split; [exact Hh|]. split; [reflexivity|]. split; [exact Hc|].
    unfold Stat.S_ISREG.
    rewrite (proj1 (chowned_keeps i u g)). exact Hm.
  - eexists _, _. split; [reflexivity|]. exists i. auto.
Qed.

Section WriteOnModel.
Context {R : Type} (read : Z -> R -> (native_exn + bytes) * R).

Lemma fixup_fd_model self p st fd fs (r : R) w old :
  written_so_far fs fd p w old →
  ∃ res fs',
    _fixup_owners self p st fd (fs, r) = Some (res, (fs', r))
    ∧ written_so_far fs' fd p w old
    ∧ (preserve_owners self = false → res = Returns tt).
Proof.
  intros Hinv. destruct (preserve_owners self) eqn:Hp.
  - rewrite fixup_enabled by exact Hp.
    assert (Hcall : ∃ res fs',
               perform (chown_call p st fd) (fs, r) = (res, (fs', r))
               ∧ written_so_far fs' fd p w old).
    { rewrite perform_pair. unfold chown_call. destruct (fd =? -1).
      - destruct (chown_at_keeps (Named p) fs fd p w old (uid st) (gid st)
                    Hinv) as (res & fs' & Hch & Hinv').
        change (perform (lchown p (uid st) (gid st)) fs)
          with (chown_at (Named p) fs p (uid st) (gid st)).
        rewrite Hch. eauto.
      - destruct (chown_at_keeps Unnamed fs fd p w old (uid st) (gid st)
                    Hinv) as (res & fs' & Hch & Hinv').
        destruct Hinv as (i & Hh & _).
        change (perform (fchown fd (uid st) (gid st)) fs)
          with (match handles fs !! fd with
                | Some (HFile q _) => chown_at Unnamed fs q (uid st) (gid st)
                | Some HSocket => (inr 0, fs)
                | None => (inl EBADF, fs)
                end).
        rewrite Hh, Hch. eauto. }
    destruct Hcall as (res & fs' & Hcall & Hinv').
    rewrite Hcall. eexists _, _. split; [reflexivity|].
    split; [exact Hinv' | discriminate].
  - rewrite fixup_disabled by exact Hp.
    eexists _, _. split; [reflexivity|]. auto.
Qed.

Lemma write_file_model fuel self path st (fs : FS) (r r' : R) cs old :
  writable_at fs (_full_path self path) old →
  yields read (2 ^ 16) r cs r' →
  (length cs < fuel)%nat →
  ∃ res fs',
    write_file fuel self path st (reader_of read) (fs, r)
    = Some (res, (fs', r'))
    ∧ read_back fs' (_full_path self path)
      = Some (concat cs ++ skipn (length (concat cs)) old)
    ∧ (preserve_owners self = false → res = Returns tt).
Proof.
  intros Hat Hy Hfuel. unfold write_file.
  set (p := _full_path self path) in *.
  destruct (open_model fs p (Stat.S_IMODE (mode st)) old Hat)
    as (fd & fs1 & Hopen & Hinv1).
  rewrite bind_sys_any, perform_pair.
  change (perform (open p (Z.lor O_WRONLY O_CREAT) (Stat.S_IMODE (mode st)))
            fs)
    with (do_open fs p (Z.lor O_WRONLY O_CREAT) (Stat.S_IMODE (mode st))).
  rewrite Hopen. rewrite bind_sys_any, perform_pair.
  change (perform (fdopen fd "wb") fs1) with (do_fdopen fs1 fd).
  assert (Hfd : do_fdopen fs1 fd = (inr fd, fs1)).
  { destruct Hinv1 as (i & Hh & _). unfold do_fdopen. rewrite Hh.
    reflexivity. }
  rewrite Hfd. unfold try_finally.
  unfold mbind at 1, M_bind at 1, Py.bind at 1.
  destruct (copy_loop_model read fd p old r r' cs Hy fuel fs1 [] Hfuel Hinv1)
    as (fs2 & Hloop & Hinv2).
  rewrite Hloop. cbn [app] in Hinv2.
  destruct (fixup_fd_model self p st fd fs2 r' (concat cs) old Hinv2)
    as (res & fs3 & Hfix & Hinv3 & Hoff).
  rewrite Hfix.
  destruct Hinv3 as (i & Hh & Hi & Hc & Hm).
  unfold sys. rewrite perform_pair.
  change (perform (close fd) fs3) with (do_close fs3 fd).
  unfold do_close. rewrite Hh.
  eexists _, _. split; [reflexivity|].
  split; [|exact Hoff].
  unfold read_back. cbn [files set_handles]. rewrite Hi, Hm, Hc.
  reflexivity.
Qed.
End WriteOnModel.

(* ===================================================================== *)
(** ** What the two readers yield *)
(* ===================================================================== *)

(** [io.BytesIO] hands out what is left of its buffer in chunks of at most
    [k] bytes. *)
Lemma BytesIO_yields (k : nat) (buf : bytes) :
  (0 < k)%nat →
  ∀ (n : nat) (pos : nat),
    length (skipn pos buf) = n →
    ∃ cs,
      yields BytesIO_read (Z.of_nat k) (mkBytesIO buf pos) cs
        (mkBytesIO buf (pos + n))
      ∧ concat cs = skipn pos buf
      ∧ (length cs * k < n + k)%nat
      ∧ Forall (λ c, (length c <= k)%nat) cs.
Proof.
  intros Hk n. induction n as [n IH] using lt_wf_ind. intros pos Hn.
  assert (Hread : BytesIO_read (Z.of_nat k) (mkBytesIO buf pos)
                  = (inr (firstn k (skipn pos buf)),
                     mkBytesIO buf (pos + length (firstn k (skipn pos buf))))).
  { unfold BytesIO_read. cbn [buffer Readers.pos].
    destruct (Z.ltb_spec (Z.of_nat k) 0); [lia|].
    rewrite Nat2Z.id. reflexivity. }
  destruct (skipn pos buf) as [|x rest] eqn:Hrest.
  - exists []. cbn [length] in Hn. subst n.
    rewrite firstn_nil in Hread. cbn [length] in Hread.
    split; [constructor; exact Hread|]. split; [reflexivity|].
    split; [simpl; lia | constructor].
  - set (chunk := firstn k (x :: rest)) in *.
    assert (Hlen : length chunk = Nat.min k n)
      by (subst chunk; rewrite length_take, Hn; reflexivity).
    assert (Hne : chunk ≠ []).
    { intros Hnil. rewrite Hnil in Hlen. cbn [length] in Hlen, Hn. lia. }
    assert (Hnext : skipn (pos + length chunk) buf = skipn k (x :: rest)).
    { rewrite <- drop_drop, Hrest, Hlen.
      destruct (Nat.le_ge_cases k n) as [Hle|Hge].
      - rewrite Nat.min_l by exact Hle. reflexivity.
      - rewrite Nat.min_r by exact Hge.
        rewrite !drop_ge by lia. reflexivity. }
    destruct (IH (n - Nat.min k n)%nat ltac:(cbn [length] in Hn; lia)
                (pos + length chunk)%nat)
      as (cs & Hy & Hcat & Hcount & Hall).
    { rewrite Hnext, length_drop, Hn. lia. }
    exists (chunk :: cs).
    split.
    { econstructor; [exact Hread | exact Hne |].
      replace (pos + n)%nat
        with (pos + length chunk + (n - Nat.min k n))%nat by lia.
      exact Hy. }
    split; [cbn [concat]; rewrite Hcat, Hnext; apply take_drop|].
    split.
    + cbn [length]. destruct (Nat.le_ge_cases k n) as [Hle|Hge].
      * rewrite Nat.min_l in Hcount by exact Hle. lia.
      * rewrite Nat.min_r in Hcount by exact Hge.
        replace (n - n)%nat with 0%nat in Hcount by lia.
        assert (length cs = 0)%nat by nia.
        cbn [length] in Hn. lia.
    + constructor; [rewrite Hlen; lia | exact Hall].
Qed.

Lemma Script_yields (n : Z) (pre : list bytes) (post : Script) :
  Forall (λ c, c ≠ []) pre →
  yields Script_read n (pre ++ [] :: post) pre post.
Proof.
  induction 1 as [|c pre Hc Hpre IH]; cbn [app].
  - constructor. reflexivity.
  - econstructor; [reflexivity | exact Hc | exact IH].
Qed.

(* ===================================================================== *)
(** ** Regular files *)
(* ===================================================================== *)

Lemma returns_after_close r cl :
  after_close r cl = Returns tt → r = Returns tt ∧ ∃ v, cl = inr v.
Proof. destruct cl as [e|v]; simpl; [discriminate|]. eauto. Qed.

(** C2. When nothing exists at the resolved path and its parent is a
    directory, [write_file] from an [io.BytesIO] over [data] ends, given
    fuel for one read per 64 KiB and one more, and leaves a file that reads
    back as [data], whatever the length of [data]; with owners not
    preserved it returns.  In any recording world a run that returns is
    [open], [fdopen], the copy loop, the ownership calls, [close]; the loop
    asks the reader for [2**16] bytes at a time and writes each chunk
    before asking for the next ([streamed]).  [io.BytesIO] never returns
    more than it was asked for. *)
Theorem write_file_round_trip :
  (∀ (fs : FS) self path st (data : bytes) (fuel : nat),
      files fs !! _full_path self path = None →
      check_parent fs (_full_path self path) = None →
      Z.of_nat (length data) + 2 ^ 16 <= Z.of_nat fuel * 2 ^ 16 →
      ∃ res fs',
        write_file fuel self path st (reader_of BytesIO_read)
          (fs, new_BytesIO data)
        = Some (res, (fs', mkBytesIO data (length data)))
        ∧ read_back fs' (_full_path self path) = Some data
        ∧ (preserve_owners self = false → res = Returns tt))
  ∧ (∀ (W : Type) (os : Os W) fuel self path st (rd : Reader W)
       (t t' : Traced W),
       write_file fuel self path st (traced_reader rd) t
       = Some (Returns tt, t') →
       ∃ fd fout loop own v,
         events t'
         = events t
             ++ Called (open (_full_path self path) (Z.lor O_WRONLY O_CREAT)
                          (Stat.S_IMODE (mode st))) (inr fd)
                :: Called (fdopen fd "wb") (inr fout)
                :: loop ++ own ++ [Called (close fout) (inr v)]
         ∧ streamed fout loop (Returns tt)
         ∧ Forall (λ ev, is_chown_event ev = true) own)
  ∧ (∀ (n : Z) (rd rd' : BytesIO) (chunk : bytes),
       0 <= n → BytesIO_read n rd = (inr chunk, rd') →
       Z.of_nat (length chunk) <= n).
Proof.
  split; [|split].
  - intros fs self path st data fuel Hfree Hpar Hfuel.
    set (k := Z.to_nat (2 ^ 16)).
    assert (Hk : Z.of_nat k = 2 ^ 16) by (apply Z2Nat.id; lia).
    destruct (BytesIO_yields k data ltac:(lia) (length data) 0%nat eq_refl)
      as (cs & Hy & Hcat & Hcount & _).
    rewrite Hk in Hy. cbn [drop] in Hcat.
    destruct (write_file_model BytesIO_read fuel self path st fs
                (new_BytesIO data) (mkBytesIO data (0 + length data)) cs [])
      as (res & fs' & Hrun & Hback & Hoff).
    + left. auto.
    + exact Hy.
    + change (2 ^ 16) with 65536 in *. nia.
    + exists res, fs'. split; [exact Hrun|]. split; [|exact Hoff].
      rewrite Hback, Hcat, drop_nil, app_nil_r. reflexivity.
  - intros W os fuel self path st rd t t' Hrun.
    apply write_file_run in Hrun as (evs & Hev & Htr).
    inversion Htr as [e|fd e|fd fout loop e cl Hst Hevs Hr
                     |fd fout loop own r cl Hst Hfix Hevs Hr]; subst.
    + destruct cl; discriminate.
    + apply returns_after_close in Hr as [-> [v ->]].
      exists fd, fout, loop, own, v. split; [exact Hev|].
      split; [exact Hst|]. eapply fixup_trace_chown; exact Hfix.
  - intros n rd rd' chunk Hn Hread. unfold BytesIO_read in Hread.
    destruct (Z.ltb_spec n 0); [lia|]. inversion Hread; subst.
    rewrite length_take. lia.
Qed.

(** Seventy thousand bytes, through a fresh file and back. *)
Lemma write_file_round_trip_witness :
  files Sample.tree !! _full_path Sample.plain "big" = None
  ∧ check_parent Sample.tree (_full_path Sample.plain "big") = None
  ∧ Z.of_nat (length Sample.big) + 2 ^ 16 <= Z.of_nat 3 * 2 ^ 16
  ∧ (∃ res fs',
       write_file 3 Sample.plain "big" Sample.st_reg (reader_of BytesIO_read)
         (Sample.tree, new_BytesIO Sample.big)
       = Some (res, (fs', mkBytesIO Sample.big (length Sample.big)))
       ∧ read_back fs' "/out/big" = Some Sample.big).
Proof.
  assert (Hfuel : Z.of_nat (length Sample.big) + 2 ^ 16 <= Z.of_nat 3 * 2 ^ 16)
    by (apply Z.leb_le; vm_compute; reflexivity).
  split; [reflexivity|]. split; [reflexivity|]. split; [exact Hfuel|].
  destruct (proj1 write_file_round_trip Sample.tree Sample.plain "big"
              Sample.st_reg Sample.big 3%nat eq_refl eq_refl Hfuel)
    as (res & fs' & Hrun & Hback & _).
  exists res, fs'. split; [exact Hrun | exact Hback].
Defined.

(** The same seventy thousand bytes in a recording world: two writes, of
    65536 and of 4464 bytes. *)
Example big_file_is_written_in_two_chunks :
  match write_file 3 Sample.plain "big" Sample.st_reg
          (traced_reader (reader_of BytesIO_read))
          (mkTraced [] (Sample.tree, new_BytesIO Sample.big)) with
  | Some (Returns _, t') => Some (written_sizes (events t'))
  | _ => None
  end = Some [65536; 4464].
Proof. vm_compute. reflexivity. Qed.

(** C9. The copy loop ends at the first [read] that returns [b""].  A
    reader that returns the non-empty chunks [pre], then [b""], then would
    return [post], has only [pre] written to the new file and is left with
    [post] unread; so the file differs from everything the reader holds
    as soon as [post] holds a byte. *)
Theorem copy_stops_at_first_empty_chunk :
  ∀ (fs : FS) self path st (pre : list bytes) (post : Script) (fuel : nat),
    files fs !! _full_path self path = None →
    check_parent fs (_full_path self path) = None →
    Forall (λ c, c ≠ []) pre →
    (length pre < fuel)%nat →
    ∃ res fs',
      write_file fuel self path st (reader_of Script_read)
        (fs, pre ++ [] :: post)
      = Some (res, (fs', post))
      ∧ read_back fs' (_full_path self path) = Some (concat pre)
      ∧ (concat post ≠ [] →
         read_back fs' (_full_path self path)
         ≠ Some (concat (pre ++ [] :: post))).
Proof.
  intros fs self path st pre post fuel Hfree Hpar Hpre Hfuel.
  destruct (write_file_model Script_read fuel self path st fs
              (pre ++ [] :: post) post pre [])
    as (res & fs' & Hrun & Hback & _).
  - left. auto.
  - apply Script_yields. exact Hpre.
  - exact Hfuel.
  - rewrite drop_nil, app_nil_r in Hback.
    exists res, fs'. split; [exact Hrun|]. split; [exact Hback|].
    intros Hpost Heq. rewrite Hback in Heq. inversion Heq as [Hcat].
    rewrite concat_app in Hcat. cbn [concat app] in Hcat.
    apply Hpost. apply (app_inv_head (concat pre)).
    rewrite app_nil_r. symmetry. exact Hcat.
Qed.

(** The reader answers [b"Hello "], [b""], [b"dirdiff!"]: the file holds
    [b"Hello "] and the reader still has [b"dirdiff!"]. *)
Lemma copy_stops_at_first_empty_chunk_witness :
  files Sample.tree !! _full_path Sample.plain "my-file" = None
  ∧ check_parent Sample.tree (_full_path Sample.plain "my-file") = None
  ∧ Forall (λ c : bytes, c ≠ []) [bytes_lit "Hello "]
  ∧ (length [bytes_lit "Hello "] < 2)%nat
  ∧ (∃ res fs',
       write_file 2 Sample.plain "my-file" Sample.st_reg
         (reader_of Script_read) (Sample.tree, Sample.stuttering)
       = Some (res, (fs', [bytes_lit "dirdiff!"]))
       ∧ read_back fs' "/out/my-file" = Some (bytes_lit "Hello ")
       ∧ read_back fs' "/out/my-file" ≠ Some Sample.hello).
Proof.
  assert (Hpre : Forall (λ c : bytes, c ≠ []) [bytes_lit "Hello "])
    by (repeat constructor; discriminate).
  split; [reflexivity|]. split; [reflexivity|]. split; [exact Hpre|].
  split; [simpl; lia|].
  destruct (copy_stops_at_first_empty_chunk Sample.tree Sample.plain
              "my-file" Sample.st_reg [bytes_lit "Hello "]
              [bytes_lit "dirdiff!"] 2%nat eq_refl eq_refl Hpre
              ltac:(simpl; lia))
    as (res & fs' & Hrun & Hback & Hdiff).
  exists res, fs'. split; [exact Hrun|]. split; [exact Hback|].
  apply Hdiff. discriminate.
Defined.

(** Over a regular file that holds [old] and that the process may
    write to, [write_file] leaves [data] followed by whatever [old] had
    beyond the length of [data]: neither
    [os.open] without [O_TRUNC] nor [os.fdopen] on an open descriptor
    cuts the file. *)
Lemma write_file_over_regular_file (fs : FS) self path st (data : bytes)
    (fuel : nat) i0 :
  files fs !! _full_path self path = Some i0 →
  Stat.S_ISREG (st_mode i0) = true →
  may_write fs i0 = true →
  Z.of_nat (length data) + 2 ^ 16 <= Z.of_nat fuel * 2 ^ 16 →
  ∃ res fs',
    write_file fuel self path st (reader_of BytesIO_read)
      (fs, new_BytesIO data)
    = Some (res, (fs', mkBytesIO data (length data)))
    ∧ read_back fs' (_full_path self path)
      = Some (data ++ skipn (length data) (content i0))
    ∧ (preserve_owners self = false → res = Returns tt).
Proof.
  intros Hi0 Hreg Hmay Hfuel.
  set (k := Z.to_nat (2 ^ 16)).
  assert (Hk : Z.of_nat k = 2 ^ 16) by (apply Z2Nat.id; lia).
  destruct (BytesIO_yields k data ltac:(lia) (length data) 0%nat eq_refl)
    as (cs & Hy & Hcat & Hcount & _).
  rewrite Hk in Hy. cbn [drop] in Hcat.
  destruct (write_file_model BytesIO_read fuel self path st fs
              (new_BytesIO data) (mkBytesIO data (0 + length data)) cs
              (content i0))
    as (res & fs' & Hrun & Hback & Hoff).
  - right. exists i0. auto.
  - exact Hy.
  - change (2 ^ 16) with 65536 in *. nia.
  - exists res, fs'. split; [exact Hrun|]. split; [|exact Hoff].
    rewrite Hback, Hcat. reflexivity.
Qed.

(** C1, at the input where the code departs from it: [my-file] holds
    [b"Hello dirdiff!"] and [b"Hi"] is written over it.  The call
    returns, so the existing file is not rejected; but it is not cut, and
    reads back as [b"Hillo dirdiff!"], not as [b"Hi"]. *)
Theorem write_file_keeps_old_tail :
  ∃ fs',
    write_file 2 Sample.plain "my-file" Sample.st_reg
      (reader_of BytesIO_read)
      (Sample.tree_with_file, new_BytesIO (bytes_lit "Hi"))
    = Some (Returns tt, (fs', mkBytesIO (bytes_lit "Hi") 2))
    ∧ read_back Sample.tree_with_file "/out/my-file"
      = Some (bytes_lit "Hello dirdiff!")
    ∧ read_back fs' "/out/my-file" = Some (bytes_lit "Hillo dirdiff!")
    ∧ read_back fs' "/out/my-file" ≠ Some (bytes_lit "Hi").
Proof.
  eexists. split; [vm_compute; reflexivity|].
  split; [reflexivity|]. split; [reflexivity|]. discriminate.
Qed.

(* ===================================================================== *)
(** ** Owners on the model tree *)
(* ===================================================================== *)

Lemma owners_default_refl fs : owners_default fs fs.
Proof.
  split; [reflexivity|]. split; [reflexivity|]. split; [auto|].
  intros p i' Hi. rewrite Hi. auto.
Qed.

Lemma owners_default_trans fs1 fs2 fs3 :
  owners_default fs1 fs2 → owners_default fs2 fs3 → owners_default fs1 fs3.
Proof.
  intros (Hu1 & Hg1 & Hk1 & H1) (Hu2 & Hg2 & Hk2 & H2).
  split; [congruence|]. split; [congruence|]. split; [auto|].
  intros p i3 Hi3. pose proof (H2 p i3 Hi3) as H23.
  destruct (files fs2 !! p) as [i2|] eqn:Hi2.
  - pose proof (H1 p i2 Hi2) as H12. destruct H23 as [Hu Hg].
    destruct (files fs1 !! p); [destruct H12; split; congruence|].
    destruct H12 as [Hu' [Hg'|(d & Hd & Hgd)]].
    + split; [congruence|]. left. congruence.
    + split; [congruence|]. right.
      destruct (files fs3 !! parent_of p) as [d3|] eqn:Hd3.
      * pose proof (H2 _ d3 Hd3) as Hd23. rewrite Hd in Hd23.
        exists d3. split; [reflexivity|]. destruct Hd23. congruence.
      * apply Hk2 in Hd3. congruence.
  - rewrite (Hk1 p Hi2). destruct H23 as [Hu [Hg|(d & Hd & Hgd)]].
    + split; [congruence|]. left. congruence.
    + split; [congruence|]. right. eauto.
Qed.

(** The three ways a call changes the tree. *)
Lemma owners_default_handles fs h n :
  owners_default fs (mkFS (files fs) h n (euid fs) (egid fs) (umask fs)).
Proof.
  split; [reflexivity|]. split; [reflexivity|]. split; [auto|].
  intros p i' Hi. cbn [files] in Hi. rewrite Hi. auto.
Qed.

Lemma owners_default_new fs p i d h n :
  files fs !! p = None → files fs !! parent_of p = Some d →
  st_uid i = euid fs → st_gid i = egid fs ∨ st_gid i = st_gid d →
  owners_default fs
    (mkFS (<[p := i]> (files fs)) h n (euid fs) (egid fs) (umask fs)).
Proof.
  intros Hfree Hd Hu Hg.
  split; [reflexivity|]. split; [reflexivity|]. cbn [files]. split.
  - intros q Hq. apply lookup_insert_None in Hq as [Hq _]. exact Hq.
  - intros q i' Hi. apply lookup_insert_Some in Hi as [[<- <-]|[Hne Hi]].
    + rewrite Hfree. split; [exact Hu|].
      destruct Hg as [Hg|Hg]; [left; exact Hg|]. right. exists d.
      split; [|exact Hg]. rewrite lookup_insert_ne; [exact Hd|].
      intros Heq. rewrite <- Heq in Hd. congruence.
    + rewrite Hi. auto.
Qed.

Lemma owners_default_same fs p i i' h n :
  files fs !! p = Some i → st_uid i' = st_uid i → st_gid i' = st_gid i →
  owners_default fs
    (mkFS (<[p := i']> (files fs)) h n (euid fs) (egid fs) (umask fs)).
Proof.
  intros Hi Hu Hg.
  split; [reflexivity|]. split; [reflexivity|]. cbn [files]. split.
  - intros q Hq. apply lookup_insert_None in Hq as [Hq _]. exact Hq.
  - intros q j Hj. apply lookup_insert_Some in Hj as [[<- <-]|[Hne Hj]].
    + rewrite Hi. auto.
    + rewrite Hj. auto.
Qed.

Lemma create_keeps_owners n fs p m rd data tg res fs' :
  create n fs p m rd data tg = (res, fs') → owners_default fs fs'.
Proof.
  unfold create.
  destruct (files fs !! p) eqn:Hp.
  { intros Heq. inversion Heq. apply owners_default_refl. }
  destruct (parent_dir fs p) as [errno|d] eqn:Hd; intros Heq; inversion Heq.
  - apply owners_default_refl.
  - apply parent_dir_found in Hd as [Hd _].
    apply (owners_default_new fs p _ d); [exact Hp|exact Hd|reflexivity|].
    unfold new_inode, new_gid. cbn [st_gid].
    destruct (has_flag (st_mode d) Stat.S_ISGID); auto.
Qed.

Lemma do_open_keeps_owners fs p flags perm res fs' :
  do_open fs p flags perm = (res, fs') → owners_default fs fs'.
Proof.
  unfold do_open.
  assert (Hnew : ∀ q res1 fs1,
             match create (Named p) fs q
                     (Z.lor Stat.S_IFREG
                        (mask (Stat.S_IMODE perm) (umask fs))) 0 [] "" with
             | (inl e, fs2) => (inl e, fs2)
             | (inr _, fs2) =>
                 let '(fd, fs3) := alloc_handle fs2 (HFile q 0) in
                 (inr fd, fs3)
             end = (res1, fs1) →
             owners_default fs fs1).
  { intros q res1 fs1.
    destruct (create _ _ _ _ _ _ _) as [[e|v] fs2] eqn:Hcr;
      intros Heq; inversion Heq; subst.
    - eapply create_keeps_owners. exact Hcr.
    - eapply owners_default_trans;
        [eapply create_keeps_owners; exact Hcr|].
      apply owners_default_handles. }
  cbv zeta.
  destruct (files fs !! p) as [i|] eqn:Hp.
  - destruct (_ && _).
    { intros Heq. inversion Heq. apply owners_default_refl. }
    destruct (resolve 40 (files fs) p) as [q|].
    2:{ intros Heq. inversion Heq. apply owners_default_refl. }
    destruct (files fs !! q) as [j|] eqn:Hq.
    + destruct (Stat.S_ISDIR (st_mode j)).
      { intros Heq. inversion Heq. apply owners_default_refl. }
      destruct (negb (may_write fs j)).
      { intros Heq. inversion Heq. apply owners_default_refl. }
      destruct (Stat.S_ISREG (st_mode j)).
      2:{ intros Heq. inversion Heq. apply owners_default_refl. }
      intros Heq. inversion Heq. cbn [files set_files].
      eapply owners_default_same; [exact Hq| |];
        destruct (has_flag flags O_TRUNC); reflexivity.
    + destruct (has_flag flags O_CREAT).
      2:{ intros Heq. inversion Heq. apply owners_default_refl. }
      apply Hnew.
  - destruct (has_flag flags O_CREAT).
    2:{ intros Heq. inversion Heq. apply owners_default_refl. }
    apply Hnew.
Qed.

(** No call but [lchown] and [fchown] changes an owner. *)
Lemma perform_keeps_owners (c : call) fs res fs' :
  is_chown c = false → perform c fs = (res, fs') → owners_default fs fs'.
Proof.
  intros Hc. destruct c; try discriminate Hc; clear Hc;
    unfold perform, fs_os.
  - apply create_keeps_owners.
  - apply do_open_keeps_owners.
  - unfold do_fdopen. destruct (handles fs !! fd) as [[]|];
      intros Heq; inversion Heq; apply owners_default_refl.
  - unfold do_write. destruct (handles fs !! fout) as [[q off|]|].
    2,3: intros Heq; inversion Heq; apply owners_default_refl.
    destruct (files fs !! q) as [i|] eqn:Hq;
      intros Heq; inversion Heq; [|apply owners_default_refl].
    eapply owners_default_same; [exact Hq| |]; reflexivity.
  - unfold do_close. destruct (handles fs !! fout);
      intros Heq; inversion Heq;
      [apply owners_default_handles | apply owners_default_refl].
  - destruct (String.eqb src "").
    + intros Heq. inversion Heq. apply owners_default_refl.
    + apply create_keeps_owners.
  - unfold do_mknod. destruct (_ <=? _).
    { intros Heq. inversion Heq. apply owners_default_refl. }
    destruct (_ =? _).
    { intros Heq. inversion Heq. apply owners_default_refl. }
    destruct (negb _).
    { intros Heq. inversion Heq. apply owners_default_refl. }
    destruct (_ && _).
    { destruct (create _ _ _ _ _ _ _) as [[e|v] fs1];
        intros Heq; inversion Heq; apply owners_default_refl. }
    apply create_keeps_owners.
  - intros Heq. inversion Heq. apply owners_default_handles.
  - unfold do_bind. destruct (handles fs !! sock) as [[]|].
    1,3: intros Heq; inversion Heq; apply owners_default_refl.
    destruct (_ <=? _)%nat.
    { intros Heq. inversion Heq. apply owners_default_refl. }
    destruct (files fs !! address).
    { intros Heq. inversion Heq. apply owners_default_refl. }
    apply create_keeps_owners.
  - unfold do_close. destruct (handles fs !! sock);
      intros Heq; inversion Heq;
      [apply owners_default_handles | apply owners_default_refl].
  - unfold do_chmod. destruct (resolve 40 (files fs) path) as [q|].
    2:{ intros Heq. inversion Heq. apply owners_default_refl. }
    destruct (files fs !! q) as [i|] eqn:Hq.
    2:{ intros Heq. inversion Heq. apply owners_default_refl. }
    destruct (_ || _); intros Heq; inversion Heq;
      [|apply owners_default_refl].
    eapply owners_default_same; [exact Hq| |]; reflexivity.
Qed.

Section KeepsOwners.
Context {R : Type}.

Lemma keeps_ret {A} (a : A) : keeps_owners (Py.ret a : M (FS * R) A).
Proof.
  intros fs r o fs' r' Hrun. inversion Hrun. apply owners_default_refl.
Qed.

Lemma keeps_raise {A} (e : exn) : keeps_owners (raise e : M (FS * R) A).
Proof.
  intros fs r o fs' r' Hrun. inversion Hrun. apply owners_default_refl.
Qed.

Lemma keeps_sys (c : call) :
  is_chown c = false → keeps_owners (sys c : M (FS * R) Z).
Proof.
  intros Hc fs r o fs' r' Hrun. unfold sys in Hrun.
  rewrite perform_pair in Hrun.
  destruct (perform c fs) as [[e|v] fs1] eqn:Hp; inversion Hrun; subst;
    exact (perform_keeps_owners c fs _ fs' Hc Hp).
Qed.

Lemma keeps_read (read : Z -> R -> (native_exn + bytes) * R) (n : Z) :
  keeps_owners (read_from (reader_of read) n).
Proof.
  intros fs r o fs' r' Hrun. unfold read_from, reader_of in Hrun.
  cbn [fst snd] in Hrun.
  destruct (read n r) as [[e|data] r1]; inversion Hrun;
    apply owners_default_refl.
Qed.

Lemma keeps_bind {A B} (m : M (FS * R) A) (k : A -> M (FS * R) B) :
  keeps_owners m → (∀ a, keeps_owners (k a)) → keeps_owners (m ≫= k).
Proof.
  intros Hm Hk fs r o fs' r' Hrun.
  unfold mbind, M_bind, Py.bind in Hrun.
  destruct (m (fs, r)) as [[[a|e] [fs1 r1]]|] eqn:Hmr; [| |discriminate].
  - eapply owners_default_trans; [eapply Hm; exact Hmr|].
    eapply Hk. exact Hrun.
  - inversion Hrun; subst. eapply Hm. exact Hmr.
Qed.

Lemma keeps_try_finally {A B} (m : M (FS * R) A) (c : M (FS * R) B) :
  keeps_owners m → keeps_owners c → keeps_owners (try_finally m c).
Proof.
  intros Hm Hc fs r o fs' r' Hrun. unfold try_finally in Hrun.
  destruct (m (fs, r)) as [[a [fs1 r1]]|] eqn:Hmr; [|discriminate].
  destruct (c (fs1, r1)) as [[[b|e] [fs2 r2]]|] eqn:Hcr; [| |discriminate];
    inversion Hrun; subst;
    (eapply owners_default_trans; [eapply Hm; exact Hmr|]);
    eapply Hc; exact Hcr.
Qed.

Lemma keeps_fixup_off self full_path st fd :
  preserve_owners self = false →
  keeps_owners (_fixup_owners self full_path st fd : M (FS * R) unit).
Proof.
  intros Hoff fs r o fs' r' Hrun.
  rewrite fixup_disabled in Hrun by exact Hoff.
  inversion Hrun. apply owners_default_refl.
Qed.

Lemma keeps_copy_loop (read : Z -> R -> (native_exn + bytes) * R) fout fuel :
  keeps_owners (copy_loop fuel (reader_of read) fout).
Proof.
  induction fuel as [|fuel IH]; [intros fs r o fs' r' Hrun; discriminate|].
  cbn [copy_loop]. apply keeps_bind; [apply keeps_read|].
  intros data. case_bool_decide; [apply keeps_ret|].
  apply keeps_bind; [apply keeps_sys; reflexivity|]. intros _. exact IH.
Qed.

(** With owners not preserved, no method changes an owner on the model
    tree: what it creates has the owner and group the file system gives
    it. *)
Lemma methods_keep_owners self :
  preserve_owners self = false →
  (∀ path st, keeps_owners (write_dir self path st : M (FS * R) unit))
  ∧ (∀ fuel path st (read : Z -> R -> (native_exn + bytes) * R),
       keeps_owners (write_file fuel self path st (reader_of read)))
  ∧ (∀ path st linkname,
       keeps_owners (write_symlink self path st linkname : M (FS * R) unit))
  ∧ (∀ path st, keeps_owners (write_other self path st : M (FS * R) unit)).
Proof.
  intros Hoff. split; [|split; [|split]].
  - intros path st. unfold write_dir.
    apply keeps_bind; [apply keeps_sys; reflexivity|].
    intros _. apply keeps_fixup_off. exact Hoff.
  - intros fuel path st read. unfold write_file.
    apply keeps_bind; [apply keeps_sys; reflexivity|]. intros fd.
    apply keeps_bind; [apply keeps_sys; reflexivity|]. intros fout.
    apply keeps_try_finally; [|apply keeps_sys; reflexivity].
    apply keeps_bind; [apply keeps_copy_loop|].
    intros _. apply keeps_fixup_off. exact Hoff.
  - intros path st linkname. unfold write_symlink.
    apply keeps_bind; [apply keeps_sys; reflexivity|].
    intros _. apply keeps_fixup_off. exact Hoff.
  - intros path st. unfold write_other.
    apply keeps_bind; [|intros _; apply keeps_fixup_off; exact Hoff].
    case_bool_decide.
    + apply keeps_bind; [apply keeps_sys; reflexivity|].
      intros _. apply keeps_ret.
    + destruct (Stat.S_ISSOCK (mode st)); [|apply keeps_raise].
      apply keeps_bind; [apply keeps_sys; reflexivity|]. intros sock.
      apply keeps_bind; [apply keeps_sys; reflexivity|]. intros _.
      apply keeps_bind; [apply keeps_sys; reflexivity|]. intros _.
      apply keeps_bind; [apply keeps_sys; reflexivity|]. intros _.
      apply keeps_ret.
Qed.
End KeepsOwners.

(** C8. With [preserve_owners] false, [_fixup_owners] returns at once
    and no method makes an ownership call, by path or by descriptor; no
    run ends with the ownership failure.  On the model tree the methods
    then change no owner: what was there keeps its owner and group, and
    what they create belongs to the user of the process and to its
    group, or to the group of the directory it is made in. *)
Theorem no_ownership_call_when_disabled :
  ∀ (self : OutputBackendFile),
    preserve_owners self = false →
    (∀ (W : Type) (os : Os W) (t : Traced W),
        (∀ full_path st fd,
            _fixup_owners self full_path st fd t = Some (Returns tt, t))
        ∧ (∀ path st,
             ∃ evs r t',
               write_dir self path st t = Some (r, t')
               ∧ events t' = events t ++ evs ∧ no_chown evs
               ∧ ∀ e, r = Raises e → ¬ is_ownership_failure e)
        ∧ (∀ fuel path st (rd : Reader W) r t',
             write_file fuel self path st (traced_reader rd) t = Some (r, t') →
             ∃ evs,
               events t' = events t ++ evs ∧ no_chown evs
               ∧ ∀ e, r = Raises e → ¬ is_ownership_failure e)
        ∧ (∀ path st linkname,
             ∃ evs r t',
               write_symlink self path st linkname t = Some (r, t')
               ∧ events t' = events t ++ evs ∧ no_chown evs
               ∧ ∀ e, r = Raises e → ¬ is_ownership_failure e)
        ∧ (∀ path st,
             ∃ evs r t',
               write_other self path st t = Some (r, t')
               ∧ events t' = events t ++ evs ∧ no_chown evs
               ∧ ∀ e, r = Raises e → ¬ is_ownership_failure e))
    ∧ (∀ (R : Type),
         (∀ path st, keeps_owners (write_dir self path st : M (FS * R) unit))
         ∧ (∀ fuel path st (read : Z -> R -> (native_exn + bytes) * R),
              keeps_owners (write_file fuel self path st (reader_of read)))
         ∧ (∀ path st linkname,
              keeps_owners
                (write_symlink self path st linkname : M (FS * R) unit))
         ∧ (∀ path st,
              keeps_owners (write_other self path st : M (FS * R) unit))).
Proof.
  intros self Hoff. split.
  - intros W os t. split; [|split; [|split; [|split]]].
    + intros full_path st fd. apply fixup_disabled. exact Hoff.
    + intros path st.
      destruct (write_dir_run self path st t)
        as (evs & r & t' & Hrun & Hev & Htr).
      apply dir_trace_facts in Htr as (_ & _ & _ & Hno).
      destruct (Hno Hoff) as [Hnc Hnot]. exists evs, r, t'. auto.
    + intros fuel path st rd r t' Hrun.
      apply write_file_run in Hrun as (evs & Hev & Htr).
      apply file_trace_facts in Htr as (_ & _ & _ & Hno).
      destruct (Hno Hoff) as [Hnc Hnot]. exists evs. auto.
    + intros path st linkname.
      destruct (write_symlink_run self path st linkname t)
        as (evs & r & t' & Hrun & Hev & Htr).
      apply symlink_trace_facts in Htr as (_ & _ & _ & Hno).
      destruct (Hno Hoff) as [Hnc Hnot]. exists evs, r, t'. auto.
    + intros path st.
      destruct (write_other_run self path st t)
        as (evs & r & t' & Hrun & Hev & Htr).
      apply other_trace_facts in Htr as (_ & _ & _ & Hno).
      destruct (Hno Hoff) as [Hnc Hnot]. exists evs, r, t'. auto.
  - intros R. apply methods_keep_owners. exact Hoff.
Qed.

(** The backend of the tests' [file_backend] fixture, asked to write a
    file for user 1234: the run records no ownership call, and the file
    belongs to user 1000, who runs the process. *)
Lemma no_ownership_call_when_disabled_witness :
  preserve_owners Sample.plain = false
  ∧ write_file 2 Sample.plain "my-file" Sample.st_reg
      (traced_reader (reader_of BytesIO_read)) Sample.before_write
    = Some (Returns tt, Sample.after_write)
  ∧ (∃ evs,
       events Sample.after_write = events Sample.before_write ++ evs
       ∧ no_chown evs)
  ∧ owners_default Sample.tree (fst (world Sample.after_write)).
Proof.
  split; [reflexivity|]. split; [exact sample_write_run|].
  destruct (no_ownership_call_when_disabled Sample.plain eq_refl)
    as [Htraced Hmodel].
  split.
  - destruct (proj1 (proj2 (proj2
                (Htraced (FS * BytesIO)%type _ Sample.before_write)))
                2%nat "my-file" Sample.st_reg (reader_of BytesIO_read)
                (Returns tt) Sample.after_write sample_write_run)
      as (evs & Hev & Hnc & _).
    exists evs. split; [exact Hev | exact Hnc].
  - apply (proj1 (proj2 (Hmodel BytesIO)) 2%nat "my-file" Sample.st_reg
             BytesIO_read Sample.tree (new_BytesIO Sample.hello)
             (Returns tt) _ (mkBytesIO Sample.hello 14)).
    vm_compute. reflexivity.
Defined.

(* ===================================================================== *)
(** * Further properties of the methods *)
(* ===================================================================== *)

(** ** Which metadata the methods read *)

(** X1. No method reads [st.size] or [st.mtime].  [write_symlink] reads
    only [uid] and [gid]; [write_dir] and [write_file] read, besides
    those, only the permission bits of [mode], for a mode of 32 bits,
    which is what [stat.S_IMODE] accepts; [write_other] reads [mode] and
    [rdev] as well.  Two records that agree on what a method reads give
    the same run, over any provider. *)
Theorem methods_read_few_metadata_fields :
  ∀ (W : Type) (os : Os W) self path (st1 st2 : StatInfo) (w : W),
    uid st1 = uid st2 → gid st1 = gid st2 →
    (∀ linkname,
        write_symlink self path st1 linkname w
        = write_symlink self path st2 linkname w)
    ∧ (0 <= mode st1 < 2 ^ 32 → 0 <= mode st2 < 2 ^ 32 →
       Stat.S_IMODE (mode st1) = Stat.S_IMODE (mode st2) →
       write_dir self path st1 w = write_dir self path st2 w
       ∧ ∀ fuel (reader : Reader W),
           write_file fuel self path st1 reader w
           = write_file fuel self path st2 reader w)
    ∧ (mode st1 = mode st2 → rdev st1 = rdev st2 →
       write_other self path st1 w = write_other self path st2 w).
Proof.
  intros W os self path [m1 u1 g1 s1 t1 r1] [m2 u2 g2 s2 t2 r2] w Hu Hg.
  cbn [uid gid mode rdev] in *. subst u2 g2.
  split; [|split].
  - intros linkname. reflexivity.
  - intros _ _ Hm. unfold write_dir, write_file. cbn [mode]. rewrite Hm.
    split; [reflexivity|]. intros fuel reader. reflexivity.
  - intros Hm Hr. subst m2 r2. reflexivity.
Qed.

(** The metadata of [test_file_write_reg] and of
    [test_file_write_dir] with the permission bits of the first: as a
    directory they give the same run. *)
Lemma methods_read_few_metadata_fields_witness :
  uid Sample.st_reg = uid Sample.st_dir
  ∧ gid Sample.st_reg = gid Sample.st_dir
  ∧ 0 <= mode Sample.st_reg < 2 ^ 32
  ∧ 0 <= Z.lor 0x1A4 Stat.S_IFDIR < 2 ^ 32
  ∧ Stat.S_IMODE (mode Sample.st_reg)
    = Stat.S_IMODE (Z.lor 0x1A4 Stat.S_IFDIR)
  ∧ write_dir Sample.plain "d" Sample.st_reg Sample.tree
    = write_dir Sample.plain "d"
        (mkStatInfo (Z.lor 0x1A4 Stat.S_IFDIR) 1234 4567 0 0 0) Sample.tree.
Proof.
  assert (H1 : 0 <= mode Sample.st_reg < 2 ^ 32)
    by (vm_compute; split; [discriminate | reflexivity]).
  assert (H2 : 0 <= Z.lor 0x1A4 Stat.S_IFDIR < 2 ^ 32)
    by (vm_compute; split; [discriminate | reflexivity]).
  split; [reflexivity|]. split; [reflexivity|]. split; [exact H1|].
  split; [exact H2|]. split; [reflexivity|].
  exact (proj1 (proj1 (proj2 (methods_read_few_metadata_fields FS _
                                Sample.plain "d" Sample.st_reg
                                (mkStatInfo (Z.lor 0x1A4 Stat.S_IFDIR)
                                   1234 4567 0 0 0)
                                Sample.tree eq_refl eq_refl))
                  H1 H2 eq_refl)).
Defined.

(** ** The file object of [write_file] *)

Lemma streamed_no_close fout evs r :
  streamed fout evs r → Forall (λ ev, is_close_event ev = false) evs.
Proof. induction 1; repeat constructor; assumption. Qed.

Lemma fixup_trace_no_close self full_path st fd evs r :
  fixup_trace self full_path st fd evs r →
  Forall (λ ev, is_close_event ev = false) evs.
Proof.
  destruct 1 as [Hp|res Hp]; constructor; [|constructor].
  unfold chown_call. destruct (fd =? -1); reflexivity.
Qed.

(** X2. Once [os.fdopen] has returned the file object, [write_file]
    closes it on every way out: whether the copy or the ownership step
    returned or raised, the last call of the run is the one [close] of the
    run.  When [os.open] or [os.fdopen] raises, nothing is closed; in the
    second case the descriptor [os.open] returned stays open. *)
Theorem write_file_closes_its_file_object :
  ∀ (W : Type) (os : Os W) fuel self path st (rd : Reader W)
    (t t' : Traced W) r,
    write_file fuel self path st (traced_reader rd) t = Some (r, t') →
    ∃ evs,
      events t' = events t ++ evs
      ∧ ((∃ fd fout body cl,
            Called (fdopen fd "wb") (inr fout) ∈ body
            ∧ evs = body ++ [Called (close fout) cl]
            ∧ Forall (λ ev, is_close_event ev = false) body)
         ∨ (¬ file_object_made evs
            ∧ Forall (λ ev, is_close_event ev = false) evs
            ∧ ∃ e, r = Raises (Native e))).
Proof.
  intros W os fuel self path st rd t t' r Hrun.
  apply write_file_run in Hrun as (evs & Hev & Htr).
  exists evs. split; [exact Hev|].
  destruct Htr as [e|fd e|fd fout loop e cl Hst|fd fout loop own r cl Hst Hfix].
  - right. split; [|split; [repeat constructor | eauto]].
    intros (fd & fout & Hin). apply list_elem_of_singleton in Hin.
    discriminate Hin.
  - right. split; [|split; [repeat constructor | eauto]].
    intros (fd' & fout & Hin). rewrite !elem_of_cons in Hin.
    destruct Hin as [Hin|[Hin|Hin]]; [discriminate Hin .. | inversion Hin].
  - left.
    exists fd, fout,
      (Called (open (_full_path self path) (Z.lor O_WRONLY O_CREAT)
                       (Stat.S_IMODE (mode st))) (inr fd)
             :: Called (fdopen fd "wb") (inr fout) :: loop), cl.
    split; [right; left|]. split; [reflexivity|].
    repeat constructor. eapply streamed_no_close; exact Hst.
  - left.
    exists fd, fout,
      (Called (open (_full_path self path) (Z.lor O_WRONLY O_CREAT)
                       (Stat.S_IMODE (mode st))) (inr fd)
             :: Called (fdopen fd "wb") (inr fout) :: loop ++ own), cl.
    split; [right; left|].
    split; [cbn [app]; rewrite <- app_assoc; reflexivity|].
    repeat constructor. apply Forall_app.
    split; [eapply streamed_no_close; exact Hst
           |eapply fixup_trace_no_close; exact Hfix].
Qed.

Lemma write_file_closes_its_file_object_witness :
  write_file 2 Sample.plain "my-file" Sample.st_reg
    (traced_reader (reader_of BytesIO_read)) Sample.before_write
  = Some (Returns tt, Sample.after_write)
  ∧ (∃ evs,
       events Sample.after_write = events Sample.before_write ++ evs
       ∧ ((∃ fd fout body cl,
             Called (fdopen fd "wb") (inr fout) ∈ body
             ∧ evs = body ++ [Called (close fout) cl]
             ∧ Forall (λ ev, is_close_event ev = false) body)
          ∨ (¬ file_object_made evs
             ∧ Forall (λ ev, is_close_event ev = false) evs
             ∧ ∃ e, Returns tt = Raises (Native e)))).
Proof.
  split; [exact sample_write_run|].
  exact (write_file_closes_its_file_object (FS * BytesIO)%type _ 2%nat
           Sample.plain "my-file" Sample.st_reg (reader_of BytesIO_read)
           Sample.before_write Sample.after_write (Returns tt)
           sample_write_run).
Defined.

(** X3. With owners preserved, [write_file] makes its one ownership call
    after the last [write] and before the [close], and makes it on the
    descriptor ([os.fchown]) whenever the descriptor is not [-1].  It
    makes none when [os.open], [os.fdopen], the reader or a [write]
    raised. *)
Theorem write_file_sets_owner_on_descriptor :
  ∀ (W : Type) (os : Os W) fuel self path st (rd : Reader W)
    (t t' : Traced W) r,
    preserve_owners self = true →
    write_file fuel self path st (traced_reader rd) t = Some (r, t') →
    ∃ evs,
      events t' = events t ++ evs
      ∧ ((no_chown evs ∧ ∃ e, r = Raises (Native e))
         ∨ (∃ fd fout loop res cl,
              evs = Called (open (_full_path self path)
                              (Z.lor O_WRONLY O_CREAT)
                              (Stat.S_IMODE (mode st))) (inr fd)
                    :: Called (fdopen fd "wb") (inr fout)
                    :: loop
                    ++ [Called (chown_call (_full_path self path) st fd) res;
                        Called (close fout) cl]
              ∧ streamed fout loop (Returns tt)
              ∧ (fd ≠ -1 →
                 chown_call (_full_path self path) st fd
                 = fchown fd (uid st) (gid st))
              ∧ r = after_close (fixup_outcome res) cl)).
Proof.
  intros W os fuel self path st rd t t' r Hp Hrun.
  apply write_file_run in Hrun as (evs & Hev & Htr).
  exists evs. split; [exact Hev|].
  destruct Htr as [e|fd e|fd fout loop e cl Hst|fd fout loop own r cl Hst Hfix].
  - left. split; [repeat constructor | eauto].
  - left. split; [repeat constructor | eauto].
  - left. split.
    + repeat constructor. apply Forall_app.
      split; [eapply streamed_no_chown; exact Hst | repeat constructor].
    + destruct (streamed_raises_native _ _ _ Hst) as [n ->].
      destruct cl as [e'|v]; simpl; eauto.
  - right. destruct Hfix as [Hoff|res _]; [congruence|].
    exists fd, fout, loop, res, cl.
    split; [reflexivity|]. split; [exact Hst|]. split; [|reflexivity].
    intros Hfd. unfold chown_call. apply Z.eqb_neq in Hfd. rewrite Hfd.
    reflexivity.
Qed.

(** [test_file_write_chown], recorded: a privileged process writes
    [my-file] for user 1234. *)
Lemma write_file_sets_owner_on_descriptor_witness :
  preserve_owners Sample.preserving = true
  ∧ (∃ r t',
       write_file 2 Sample.preserving "my-file" Sample.st_reg
         (traced_reader (reader_of BytesIO_read))
         (mkTraced [] (Sample.root_tree, new_BytesIO Sample.hello))
       = Some (r, t')
       ∧ ∃ evs,
           events t' = [] ++ evs
           ∧ ((no_chown evs ∧ ∃ e, r = Raises (Native e))
              ∨ (∃ fd fout loop res cl,
                   evs = Called (open "/out/my-file" 65 420) (inr fd)
                         :: Called (fdopen fd "wb") (inr fout)
                         :: loop
                         ++ [Called (chown_call "/out/my-file"
                                       Sample.st_reg fd) res;
                             Called (close fout) cl]
                   ∧ streamed fout loop (Returns tt)
                   ∧ (fd ≠ -1 →
                      chown_call "/out/my-file" Sample.st_reg fd
                      = fchown fd 1234 4567)
                   ∧ r = after_close (fixup_outcome res) cl))).
Proof.
  split; [reflexivity|].
  destruct (write_file 2 Sample.preserving "my-file" Sample.st_reg
              (traced_reader (reader_of BytesIO_read))
              (mkTraced [] (Sample.root_tree, new_BytesIO Sample.hello)))
    as [[r t']|] eqn:Hrun.
  - exists r, t'. split; [reflexivity|].
    exact (write_file_sets_owner_on_descriptor (FS * BytesIO)%type _
             2%nat Sample.preserving "my-file" Sample.st_reg
             (reader_of BytesIO_read) _ t' r eq_refl Hrun).
  - vm_compute in Hrun. discriminate Hrun.
Defined.

(** ** Where a method stops *)

(** X4. A method ends at the first creating call that raises: the
    exception of [os.mkdir], [os.symlink] or [os.mknod] is the outcome,
    that call is the only one made, and no ownership change is attempted
    even when owners are to be preserved.  In the socket branch of
    [write_other], when [bind] raises, the call is the last one: the
    socket just made is not closed and no permission is set. *)
Theorem failed_creation_ends_the_method :
  ∀ (W : Type) (os : Os W) self path st (t : Traced W) e (w' : W),
    (perform (mkdir (_full_path self path) (Stat.S_IMODE (mode st)))
       (world t) = (inl e, w') →
     write_dir self path st t
     = Some (Raises (Native e),
             mkTraced
               (events t
                  ++ [Called (mkdir (_full_path self path)
                                (Stat.S_IMODE (mode st))) (inl e)]) w'))
    ∧ (∀ linkname,
         perform (symlink linkname (_full_path self path)) (world t)
         = (inl e, w') →
         write_symlink self path st linkname t
         = Some (Raises (Native e),
                 mkTraced
                   (events t
                      ++ [Called (symlink linkname (_full_path self path))
                            (inl e)]) w'))
    ∧ (Stat.S_IFMT (mode st) ∈ [Stat.S_IFCHR; Stat.S_IFBLK; Stat.S_IFIFO] →
       perform (mknod (_full_path self path) (mode st) (rdev st)) (world t)
       = (inl e, w') →
       write_other self path st t
       = Some (Raises (Native e),
               mkTraced
                 (events t
                    ++ [Called (mknod (_full_path self path) (mode st)
                                  (rdev st)) (inl e)]) w'))
    ∧ (∀ sock (w1 : W),
         Stat.S_IFMT (mode st) = Stat.S_IFSOCK →
         perform (socket AF_UNIX SOCK_DGRAM) (world t) = (inr sock, w1) →
         perform (bind sock (_full_path self path)) w1 = (inl e, w') →
         write_other self path st t
         = Some (Raises (Native e),
                 mkTraced
                   (events t
                      ++ [Called (socket AF_UNIX SOCK_DGRAM) (inr sock);
                          Called (bind sock (_full_path self path)) (inl e)])
                   w')).
Proof.
  intros W os self path st t e w'. split; [|split; [|split]].
  - intros Hcall. unfold write_dir. rewrite bind_sys, Hcall. reflexivity.
  - intros linkname Hcall. unfold write_symlink.
    rewrite bind_sys, Hcall. reflexivity.
  - intros Hfmt Hcall. unfold write_other.
    rewrite bool_decide_eq_true_2 by exact Hfmt.
    rewrite bind_assoc, bind_sys, Hcall. reflexivity.
  - intros sock w1 Hfmt Hsock Hbind. unfold write_other.
    rewrite bool_decide_eq_false_2.
    2:{ intros Hin. exact (not_socket_if_node _ Hin Hfmt). }
    assert (Hs : Stat.S_ISSOCK (mode st) = true)
      by (apply Z.eqb_eq; exact Hfmt).
    rewrite Hs. cbv iota.
    rewrite bind_assoc, bind_sys, Hsock.
    rewrite bind_assoc, bind_sys. cbn [world events]. rewrite Hbind.
    rewrite <- app_assoc. reflexivity.
Qed.

(** The directory is there already: [os.mkdir] raises and nothing else
    is tried, although owners were to be preserved. *)
Lemma failed_creation_ends_the_method_witness :
  perform (mkdir (_full_path Sample.preserving ".")
             (Stat.S_IMODE (mode Sample.st_dir)))
    (world (mkTraced [] Sample.tree))
  = (inl (EEXIST "/out"), Sample.tree)
  ∧ write_dir Sample.preserving "." Sample.st_dir (mkTraced [] Sample.tree)
    = Some (Raises (Native (EEXIST "/out")),
            mkTraced [Called (mkdir "/out" 493) (inl (EEXIST "/out"))]
              Sample.tree).
Proof.
  split; [reflexivity|].
  exact (proj1 (failed_creation_ends_the_method FS _ Sample.preserving "."
                  Sample.st_dir (mkTraced [] Sample.tree) (EEXIST "/out")
                  Sample.tree) eq_refl).
Defined.

(* ===================================================================== *)
(** * Exact runs on the model tree *)
(* ===================================================================== *)












(** ** Regular files, exactly *)


















(** ** Special files, exactly *)









(** ** Paths that are taken, parents that are missing *)









(** * Where [_full_path] leads *)
(* ===================================================================== *)

Lemma append_cons ch (a b : string) : String ch a +:+ b = String ch (a +:+ b).
Proof. reflexivity. Qed.

Lemma append_assoc (a b c : string) : (a +:+ b) +:+ c = a +:+ (b +:+ c).
Proof.
  induction a as [|ch a IH]; [reflexivity|].
  rewrite !append_cons. f_equal. exact IH.
Qed.

Lemma prefix_append (a b : string) : String.prefix a (a +:+ b) = true.
Proof.
  induction a as [|ch a IH]; [destruct b; reflexivity|].
  rewrite append_cons. cbn [String.prefix].
  destruct (ascii_dec ch ch); [exact IH | congruence].
Qed.

Lemma split_nonempty s : PosixPath.split s ≠ [].
Proof.
  destruct s as [|ch s]; simpl; [discriminate|].
  destruct (Ascii.eqb ch "/"); [discriminate|].
  destruct (PosixPath.split s); discriminate.
Qed.

Lemma split_app_sep (a b : string) :
  PosixPath.split (a +:+ String "/" b) = PosixPath.split a ++ PosixPath.split b.
Proof.
  induction a as [|ch a IH]; [reflexivity|].
  rewrite append_cons. cbn [PosixPath.split]. rewrite IH.
  destruct (Ascii.eqb ch "/"); [reflexivity|].
  destruct (PosixPath.split a) as [|h t] eqn:Hs; [|reflexivity].
  exfalso. exact (split_nonempty a Hs).
Qed.

Lemma split_no_sep c : no_sep c → PosixPath.split c = [c].
Proof.
  unfold no_sep. induction c as [|ch c IH]; intros Hc; [reflexivity|].
  cbn [list_ascii_of_string] in Hc. inversion Hc as [|? ? Hch Hrest]; subst.
  cbn [PosixPath.split]. apply Ascii.eqb_neq in Hch. rewrite Hch.
  rewrite (IH Hrest). reflexivity.
Qed.

Lemma split_concat cs :
  cs ≠ [] → Forall no_sep cs →
  PosixPath.split (String.concat "/" cs) = cs.
Proof.
  induction cs as [|c cs IH]; intros Hne Hall; [congruence|].
  inversion Hall as [|? ? Hc Hcs]; subst.
  destruct cs as [|c' cs]; [apply split_no_sep; exact Hc|].
  change (String.concat "/" (c :: c' :: cs))
    with (c +:+ String "/" (String.concat "/" (c' :: cs))).
  rewrite split_app_sep, (split_no_sep c Hc), IH by (discriminate || exact Hcs).
  reflexivity.
Qed.

Lemma endswith_sep_append (a b : string) :
  b ≠ "" → PosixPath.endswith_sep (a +:+ b) = PosixPath.endswith_sep b.
Proof.
  intros Hb. induction a as [|ch a IH]; [reflexivity|].
  rewrite append_cons. cbn [PosixPath.endswith_sep].
  destruct (a +:+ b) eqn:Hab; [|exact IH].
  destruct a; [change ("" +:+ b) with b in Hab; congruence
             | rewrite append_cons in Hab; discriminate Hab].
Qed.

Lemma endswith_sep_no_sep c : no_sep c → PosixPath.endswith_sep c = false.
Proof.
  unfold no_sep. induction c as [|ch c IH]; intros Hc; [reflexivity|].
  cbn [list_ascii_of_string] in Hc. inversion Hc as [|? ? Hch Hrest]; subst.
  cbn [PosixPath.endswith_sep]. destruct c; [|exact (IH Hrest)].
  apply Ascii.eqb_neq. exact Hch.
Qed.

(** A path made of names starts with a character that is no separator. *)
Lemma concat_names_head c cs :
  is_name c → ∃ ch rest, ch ≠ "/"%char
                        ∧ String.concat "/" (c :: cs) = String ch rest.
Proof.
  intros (Hsep & Hne & _). destruct c as [|ch c]; [congruence|].
  unfold no_sep in Hsep. cbn [list_ascii_of_string] in Hsep.
  inversion Hsep as [|? ? Hch _]; subst.
  exists ch. destruct cs; eexists; (split; [exact Hch | reflexivity]).
Qed.

Lemma endswith_sep_names cs :
  Forall is_name cs → PosixPath.endswith_sep (String.concat "/" cs) = false.
Proof.
  induction cs as [|c cs IH]; intros Hall; [reflexivity|].
  inversion Hall as [|? ? Hc Hcs]; subst.
  destruct cs as [|c' cs]; [apply endswith_sep_no_sep; apply Hc|].
  change (String.concat "/" (c :: c' :: cs))
    with (c +:+ String "/" (String.concat "/" (c' :: cs))).
  inversion Hcs as [|? ? Hc' _]; subst.
  destruct (concat_names_head c' cs Hc') as (ch & rest & _ & Hhead).
  rewrite endswith_sep_append by discriminate.
  cbn [PosixPath.endswith_sep]. rewrite Hhead. rewrite <- Hhead.
  exact (IH Hcs).
Qed.

Lemma concat_app_sep (cs1 cs2 : list string) :
  cs1 ≠ [] → cs2 ≠ [] →
  String.concat "/" (cs1 ++ cs2)
  = String.concat "/" cs1 +:+ "/" +:+ String.concat "/" cs2.
Proof.
  intros H1 H2. induction cs1 as [|c cs1 IH]; [congruence|].
  destruct cs1 as [|c' cs1].
  - destruct cs2; [congruence | reflexivity].
  - change (String.concat "/" ((c :: c' :: cs1) ++ cs2))
      with (c +:+ "/" +:+ String.concat "/" ((c' :: cs1) ++ cs2)).
    rewrite IH by discriminate.
    change (String.concat "/" (c :: c' :: cs1))
      with (c +:+ "/" +:+ String.concat "/" (c' :: cs1)).
    rewrite !append_assoc. reflexivity.
Qed.

(** The component loop of [normpath] on names, and on components none of
    which is [..]. *)
Lemma fold_norm_names (k : Z) cs acc :
  Forall is_name cs →
  fold_left (PosixPath.norm_step k) cs acc = acc ++ cs.
Proof.
  intros Hall. revert acc.
  induction Hall as [|c cs (Hsep & Hne & Hdot & Hdd) _ IH]; intros acc;
    [symmetry; apply app_nil_r|].
  cbn [fold_left]. unfold PosixPath.norm_step at 2.
  apply String.eqb_neq in Hne, Hdot, Hdd. rewrite Hne, Hdot, Hdd.
  cbn [orb negb]. rewrite IH, <- app_assoc. reflexivity.
Qed.

Lemma fold_norm_no_dotdot (k : Z) cs acc :
  ".." ∉ cs →
  fold_left (PosixPath.norm_step k) cs acc = acc ++ List.filter kept cs.
Proof.
  revert acc. induction cs as [|c cs IH]; intros acc Hdd;
    [symmetry; apply app_nil_r|].
  apply not_elem_of_cons in Hdd as [Hc Hcs].
  cbn [fold_left List.filter]. unfold PosixPath.norm_step at 2, kept.
  destruct (String.eqb c "" || String.eqb c ".")%bool eqn:Hskip; cbn [negb].
  - apply IH. exact Hcs.
  - assert (Hne : String.eqb c ".." = false)
      by (apply String.eqb_neq; congruence).
    rewrite Hne. cbn [negb orb]. rewrite IH by exact Hcs.
    rewrite <- app_assoc. reflexivity.
Qed.

(** [_full_path] from a base made of names, for a path that is not
    absolute and has no [..] in it. *)
Lemma full_path_formula self path bcs :
  base_path self = abs_path bcs → bcs ≠ [] → Forall is_name bcs →
  PosixPath.startswith path "/" = false →
  ".." ∉ PosixPath.split path →
  _full_path self path = abs_path (bcs ++ List.filter kept (PosixPath.split path)).
Proof.
  intros Hbase Hne Hnames Hrel Hdd.
  destruct bcs as [|c bcs]; [congruence|].
  inversion Hnames as [|? ? Hc Hcs]; subst.
  destruct (concat_names_head c bcs Hc) as (ch & rest & Hch & Hhead).
  assert (Hend : PosixPath.endswith_sep (abs_path (c :: bcs)) = false).
  { unfold abs_path. rewrite endswith_sep_append by (rewrite Hhead; discriminate).
    apply endswith_sep_names. exact Hnames. }
  assert (Hjoin : PosixPath.join (base_path self) path
                  = String "/" (String.concat "/" (c :: bcs)
                                +:+ String "/" path)).
  { unfold PosixPath.join.
    change (PosixPath.startswith path PosixPath.sep)
      with (PosixPath.startswith path "/").
    rewrite Hrel, Hbase, Hend.
    change (abs_path (c :: bcs))
      with (String "/" (String.concat "/" (c :: bcs))).
    cbn [String.eqb orb]. rewrite append_cons. reflexivity. }
  unfold _full_path. rewrite Hjoin.
  unfold PosixPath.normpath. cbn [String.eqb].
  assert (Hone : PosixPath.startswith
                   (String "/" (String.concat "/" (c :: bcs)
                                +:+ String "/" path)) "//" = false).
  { unfold PosixPath.startswith. rewrite Hhead, append_cons.
    cbn [String.prefix].
    destruct (ascii_dec "/" "/"); [|congruence].
    destruct (ascii_dec "/" ch); [congruence | reflexivity]. }
  assert (Hslash : PosixPath.startswith
                     (String "/" (String.concat "/" (c :: bcs)
                                  +:+ String "/" path)) PosixPath.sep = true).
  { unfold PosixPath.startswith, PosixPath.sep. cbn [String.prefix].
    destruct (ascii_dec "/" "/"); [|congruence].
    destruct (String.concat "/" (c :: bcs) +:+ String "/" path); reflexivity. }
  rewrite Hslash, Hone. cbn [andb].
  change (PosixPath.split
            (String "/" (String.concat "/" (c :: bcs) +:+ String "/" path)))
    with ([""] ++ PosixPath.split
                    (String.concat "/" (c :: bcs) +:+ String "/" path)).
  rewrite split_app_sep, split_concat.
  2: discriminate.
  2:{ eapply Forall_impl; [exact Hnames|]. intros x Hx. apply Hx. }
  rewrite !fold_left_app.
  change (fold_left (PosixPath.norm_step 1) [""] []) with ([] : list string).
  rewrite (fold_norm_names 1 (c :: bcs)) by exact Hnames.
  rewrite fold_norm_no_dotdot by exact Hdd. cbn [app].
  change (Z.eqb 1 0) with false. change (Z.eqb 1 2) with false. cbv iota.
  change (abs_path (c :: bcs ++ List.filter kept (PosixPath.split path)))
    with (String "/"
            (String.concat "/"
               (c :: bcs ++ List.filter kept (PosixPath.split path)))).
  cbn [String.eqb]. reflexivity.
Qed.

(** X12. Containment where it does hold.  When [base_path] is an
    absolute path made of names and [path] is not absolute and has no
    [..] component, [_full_path] is the base followed by the components of
    [path] that are neither empty nor [.]; so it is [base_path] itself or
    lies below it. *)
Theorem full_path_stays_below_base :
  ∀ self path bcs,
    base_path self = abs_path bcs → bcs ≠ [] → Forall is_name bcs →
    PosixPath.startswith path "/" = false →
    ".." ∉ PosixPath.split path →
    _full_path self path
    = abs_path (bcs ++ List.filter kept (PosixPath.split path))
    ∧ within (base_path self) (_full_path self path) = true.
Proof.
  intros self path bcs Hbase Hne Hnames Hrel Hdd.
  pose proof (full_path_formula self path bcs Hbase Hne Hnames Hrel Hdd)
    as Hfull.
  split; [exact Hfull|]. rewrite Hfull, Hbase. unfold within.
  destruct (List.filter kept (PosixPath.split path)) as [|c rest].
  - rewrite app_nil_r, String.eqb_refl. reflexivity.
  - apply orb_true_iff. right. unfold abs_path, PosixPath.startswith.
    rewrite concat_app_sep by (exact Hne || discriminate).
    rewrite <- !append_assoc. apply prefix_append.
Qed.

Lemma full_path_stays_below_base_witness :
  base_path Sample.rooted = abs_path ["srv"; "out"]
  ∧ ["srv"; "out"] ≠ []
  ∧ Forall is_name ["srv"; "out"]
  ∧ PosixPath.startswith "a/.//b/" "/" = false
  ∧ (".." ∉ PosixPath.split "a/.//b/")
  ∧ _full_path Sample.rooted "a/.//b/" = "/srv/out/a/b"
  ∧ within "/srv/out" "/srv/out/a/b" = true.
Proof.
  assert (Hnames : Forall is_name ["srv"; "out"]).
  { repeat constructor; try discriminate;
      intros H; discriminate H. }
  assert (Hdd : ".." ∉ PosixPath.split "a/.//b/").
  { cbv [PosixPath.split Ascii.eqb Bool.eqb]. rewrite !elem_of_cons.
    intros [H|[H|[H|[H|[H|H]]]]]; [discriminate H .. | inversion H]. }
  split; [reflexivity|]. split; [discriminate|]. split; [exact Hnames|].
  split; [reflexivity|]. split; [exact Hdd|].
  destruct (full_path_stays_below_base Sample.rooted "a/.//b/" ["srv"; "out"]
              eq_refl ltac:(discriminate) Hnames eq_refl Hdd)
    as [Hfull Hin].
  split; [exact Hfull | exact Hin].
Defined.

(** X13. The empty path and [.] name the root itself: for a
    [base_path] made of names both resolve to [base_path], so [write_dir]
    on them asks for a directory that is already there. *)
Theorem full_path_of_empty_path_is_base :
  ∀ self path bcs,
    base_path self = abs_path bcs → bcs ≠ [] → Forall is_name bcs →
    path = "" ∨ path = "." →
    _full_path self path = base_path self.
Proof.
  intros self path bcs Hbase Hne Hnames Hpath.
  assert (Hrel : PosixPath.startswith path "/" = false)
    by (destruct Hpath as [-> | ->]; reflexivity).
  assert (Hdd : ".." ∉ PosixPath.split path).
  { destruct Hpath as [-> | ->];
      cbv [PosixPath.split Ascii.eqb Bool.eqb];
      rewrite !elem_of_cons; intros [H|H];
      (discriminate H || inversion H). }
  rewrite (full_path_formula self path bcs Hbase Hne Hnames Hrel Hdd), Hbase.
  destruct Hpath as [-> | ->]; cbn [PosixPath.split List.filter];
    rewrite app_nil_r; reflexivity.
Qed.

Lemma full_path_of_empty_path_is_base_witness :
  base_path Sample.plain = abs_path ["out"]
  ∧ ["out"] ≠ []
  ∧ Forall is_name ["out"]
  ∧ ("" = "" ∨ "" = ".")
  ∧ _full_path Sample.plain "" = "/out".
Proof.
  assert (Hnames : Forall is_name ["out"]).
  { repeat constructor; try discriminate; intros H; discriminate H. }
  split; [reflexivity|]. split; [discriminate|]. split; [exact Hnames|].
  split; [left; reflexivity|].
  exact (full_path_of_empty_path_is_base Sample.plain "" ["out"] eq_refl
           ltac:(discriminate) Hnames (or_introl eq_refl)).
Defined.

(** X14. An absolute [path] drops [base_path]: [_full_path] is then
    [normpath(path)], the same for every backend, and the methods work
    there. *)
Theorem full_path_of_absolute_path :
  ∀ self self' path,
    PosixPath.startswith path "/" = true →
    _full_path self path = PosixPath.normpath path
    ∧ _full_path self path = _full_path self' path.
Proof.
  intros self self' path Habs. unfold _full_path, PosixPath.join.
  change (PosixPath.startswith path PosixPath.sep)
    with (PosixPath.startswith path "/").
  rewrite Habs. split; reflexivity.
Qed.

Lemma full_path_of_absolute_path_witness :
  PosixPath.startswith "/etc/passwd" "/" = true
  ∧ _full_path Sample.rooted "/etc/passwd" = "/etc/passwd".
Proof.
  split; [reflexivity|].
  exact (proj1 (full_path_of_absolute_path Sample.rooted Sample.plain
                  "/etc/passwd" eq_refl)).
Defined.

(** ** A directory, then a file below it *)



